(** * Streaming action blocks and diff review: a shallow embedding

    The development follows two parts of the plugin:

    - the class [ActionBlockStreamer]: the buffer, the tag scanner
      [findCompleteBlock], field extraction and the per-chunk dispatch
      loop [processChunk], together with the loop of [LLMChainRunner.run]
      that feeds it;
    - the review pane [ApplyViewRoot]: decisions on diff entries,
      [acceptBlock] / [rejectBlock] and the reconstructed views.

    JavaScript strings are modelled by [string]; a character stands for a
    code unit in the Latin-1 range. *)

From Stdlib Require Import String Ascii List Bool Arith Lia.
Import ListNotations.
Open Scope string_scope.
Open Scope list_scope.

Set Implicit Arguments.

(** ** Strings as JavaScript uses them *)

Module Js.

(** [s.substring(n)]: the text from offset [n] to the end. *)
Fixpoint substringFrom (n : nat) (s : string) : string :=
  match n, s with
  | 0, _ => s
  | S _, EmptyString => EmptyString
  | S n', String _ s' => substringFrom n' s'
  end.

(** [s.substring(0, n)]: the first [n] code units. *)
Fixpoint substringTo (n : nat) (s : string) : string :=
  match n, s with
  | 0, _ => EmptyString
  | S _, EmptyString => EmptyString
  | S n', String c s' => String c (substringTo n' s')
  end.

(** [arr.join("")]. *)
Definition join (parts : list string) : string := String.concat "" parts.

(** White space removed by [String.prototype.trim], Latin-1 range:
    TAB, LF, VT, FF, CR, SPACE and NBSP. *)
Definition isWhiteSpace (c : ascii) : bool :=
  let n := nat_of_ascii c in
  ((9 <=? n) && (n <=? 13) || (n =? 32) || (n =? 160))%nat.

Fixpoint trimStart (s : string) : string :=
  match s with
  | EmptyString => EmptyString
  | String c s' => if isWhiteSpace c then trimStart s' else s
  end.

(** Drops trailing white space: a character is kept when something that is
    not white space follows or when it is not white space itself. *)
Fixpoint trimEnd (s : string) : string :=
  match s with
  | EmptyString => EmptyString
  | String c s' =>
      match trimEnd s' with
      | EmptyString => if isWhiteSpace c then EmptyString else String c EmptyString
      | rest => String c rest
      end
  end.

Definition trim (s : string) : string := trimEnd (trimStart s).

(** [toLowerCase] on one Latin-1 code unit. *)
Definition lowerChar (c : ascii) : ascii :=
  let n := nat_of_ascii c in
  if ((65 <=? n) && (n <=? 90)
      || (192 <=? n) && (n <=? 222) && negb (n =? 215))%nat
  then ascii_of_nat (n + 32) else c.

Fixpoint toLowerCase (s : string) : string :=
  match s with
  | EmptyString => EmptyString
  | String c s' => String (lowerChar c) (toLowerCase s')
  end.

End Js.

(** ** The two regular expressions of the streamer

    Both expressions have the shape [<name>[\s\S]*?</name>].  The matcher
    below follows the backtracking search of the engine: start offsets are
    tried from left to right, at one offset the alternatives are tried in
    order, and the lazy star tries the closing tag before it consumes one
    more code unit. *)

Module Regex.

(** [[\s\S]*?] followed by the literal [close]: the number of code units
    matched, counted through the end of [close]. *)
Fixpoint lazyUntil (close : string) (s : string) : option nat :=
  if String.prefix close s then Some (String.length close)
  else match s with
       | EmptyString => None
       | String _ s' => option_map S (lazyUntil close s')
       end.

(** The literal [open], then the lazy star and [close], anchored at the
    start of [s]: the length of the match. *)
Definition delimitedAt (open close : string) (s : string) : option nat :=
  if String.prefix open s
  then option_map (Nat.add (String.length open))
         (lazyUntil close (Js.substringFrom (String.length open) s))
  else None.

End Regex.

(** ** ActionBlockStreamer *)

(** The union type of [toolName]. *)
Inductive ToolName : Type :=
  | writeToFile | replaceInFile | deleteNote | createFolder
  | deleteFolder | moveFile | moveFolder.

(** The array [tagNames] of [findCompleteBlock], in its order. *)
Definition tagNames : list ToolName :=
  [writeToFile; replaceInFile; deleteNote; createFolder;
   deleteFolder; moveFile; moveFolder].

Definition tagText (t : ToolName) : string :=
  match t with
  | writeToFile => "writeToFile"
  | replaceInFile => "replaceInFile"
  | deleteNote => "deleteNote"
  | createFolder => "createFolder"
  | deleteFolder => "deleteFolder"
  | moveFile => "moveFile"
  | moveFolder => "moveFolder"
  end.

Definition openTag (name : string) : string := "<" ++ name ++ ">".
Definition closeTag (name : string) : string := "</" ++ name ++ ">".

(** The alternation [(writeToFile|...|moveFolder)] with the back reference
    [\1], anchored at the start of [s]: the first alternative whose opening
    tag is here and whose closing tag follows wins. *)
Fixpoint matchBlockAt (names : list ToolName) (s : string)
  : option (ToolName * nat) :=
  match names with
  | [] => None
  | t :: names' =>
      match Regex.delimitedAt (openTag (tagText t)) (closeTag (tagText t)) s with
      | Some len => Some (t, len)
      | None => matchBlockAt names' s
      end
  end.

(** [str.match(regex)] for the block expression: [match.index], the group
    [match[1]] and the length of [match[0]]. *)
Fixpoint searchBlock (s : string) : option (nat * ToolName * nat) :=
  match matchBlockAt tagNames s with
  | Some (t, len) => Some (0, t, len)
  | None =>
      match s with
      | EmptyString => None
      | String _ s' =>
          match searchBlock s' with
          | Some (i, t, len) => Some (S i, t, len)
          | None => None
          end
      end
  end.

(** The offsets of [s] at which the alternation matches: where an opening
    tag of a recognized name starts that has its closing tag further on. *)
Fixpoint pairOffsets (s : string) : list nat :=
  match matchBlockAt tagNames s with
  | Some _ => [0]
  | None => []
  end
  ++ match s with
     | EmptyString => []
     | String _ s' => map S (pairOffsets s')
     end.

Record BlockInfo : Type := mkBlockInfo {
  block : string;
  toolName : ToolName;
  endIdx : nat
}.

Definition findCompleteBlock (str : string) : option BlockInfo :=
  match searchBlock str with
  | None => None
  | Some (index, t, len) =>
      Some {| block := Js.substringTo len (Js.substringFrom index str);
              toolName := t;
              endIdx := index + len |}
  end.

(** [str.match(regex)] for [<tag>([\s\S]*?)</tag>]: the captured group. *)
Fixpoint searchField (tag : string) (s : string) : option string :=
  match Regex.delimitedAt (openTag tag) (closeTag tag) s with
  | Some len =>
      Some (Js.substringTo
              (len - String.length (openTag tag) - String.length (closeTag tag))
              (Js.substringFrom (String.length (openTag tag)) s))
  | None =>
      match s with
      | EmptyString => None
      | String _ s' => searchField tag s'
      end
  end.

Definition extractTagValue (blk : string) (tag : string) : option string :=
  option_map Js.trim (searchField tag blk).

Definition parseBoolean (value : option string) : option bool :=
  match value with
  | None => None
  | Some value =>
      let v := Js.toLowerCase (Js.trim value) in
      if (v =? "true")%string then Some true
      else if (v =? "false")%string then Some false
      else None
  end.

(** A property value of the [args] object. *)
Inductive ArgValue : Type :=
  | AUndefined
  | AString (s : string)
  | ABoolean (b : bool).

(** The [args] object: its own properties in insertion order. *)
Definition Args : Type := list (string * ArgValue).

Definition stringArg (v : option string) : ArgValue :=
  match v with
  | Some s => AString s
  | None => AUndefined
  end.

(** [if (flag !== undefined) args.name = flag]. *)
Definition optionalFlag (name : string) (flag : option bool) : Args :=
  match flag with
  | Some b => [(name, ABoolean b)]
  | None => []
  end.

(** The chain of [if (toolName === ...)] that fills [args]. *)
Definition buildArgs (t : ToolName) (blk : string) : Args :=
  match t with
  | writeToFile =>
      [("path", stringArg (extractTagValue blk "path"));
       ("content", stringArg (extractTagValue blk "content"))]
  | replaceInFile =>
      [("path", stringArg (extractTagValue blk "path"));
       ("diff", stringArg (extractTagValue blk "diff"))]
  | deleteNote => [("path", stringArg (extractTagValue blk "path"))]
  | createFolder => [("path", stringArg (extractTagValue blk "path"))]
  | deleteFolder =>
      ("path", stringArg (extractTagValue blk "path"))
        :: optionalFlag "recursive"
             (parseBoolean (extractTagValue blk "recursive"))
  | moveFile | moveFolder =>
      ("fromPath", stringArg (extractTagValue blk "fromPath"))
        :: ("toPath", stringArg (extractTagValue blk "toPath"))
        :: optionalFlag "createMissingFolders"
             (parseBoolean (extractTagValue blk "createMissingFolders"))
  end.

(** *** Chunks, thrown values and the collaborators *)

(** One element of an array-valued [chunk.content]; [itemText] is [None]
    when [item.text] is null or undefined. *)
Record ContentItem : Type := mkItem {
  itemType : string;
  itemText : option string
}.

Inductive Content : Type :=
  | ContentAbsent
  | ContentString (s : string)
  | ContentArray (items : list ContentItem).

(** A value caught by [catch (err)]: its [message] property, if any, and
    what string conversion gives for it inside a template literal. *)
Record Thrown : Type := mkThrown {
  message : option string;
  rendered : string
}.

(** [err?.message || err]. *)
Definition errorText (err : Thrown) : string :=
  match message err with
  | Some m => if (m =? "")%string then rendered err else m
  | None => rendered err
  end.

(** [new Error(`Tool not available for tag: ${toolName}`)]. *)
Definition toolNotAvailable (t : ToolName) : Thrown :=
  let m := ("Tool not available for tag: " ++ tagText t)%string in
  {| message := Some m; rendered := ("Error: " ++ m)%string |}.

Definition newline : string := String (ascii_of_nat 10) EmptyString.

Section Streamer.

(** [Extra] stands for the fields of a chunk other than [content];
    [World] for whatever the tools read and change. *)
Variables Extra Tool Result World : Type.

Record Chunk : Type := mkChunk {
  content : Content;
  extra : Extra
}.

(** The constructor argument [tools], [ToolManager.callTool] and
    [ToolResultFormatter.format]. *)
Variable tools : ToolName -> option Tool.
Variable callTool : Tool -> Args -> World -> (Result + Thrown) * World.
Variable format : ToolName -> Result -> string + Thrown.

(** What an observer of one [processChunk] run sees, in order. *)
Inductive Event : Type :=
  | EvYield (c : Chunk)
  | EvScan (buffer : string) (found : option BlockInfo)
  | EvCall (t : ToolName) (tool : Tool) (args : Args).

(** The text payload of a chunk. *)
Definition chunkContent (chunk : Chunk) : string :=
  match content chunk with
  | ContentArray items =>
      fold_left
        (fun acc item =>
           if (itemType item =? "text")%string
           then match itemText item with
                | Some t => (acc ++ t)%string
                | None => acc
                end
           else acc)
        items ""
  | ContentString s => s
  | ContentAbsent => ""
  end.

(** [if (chunkContent) this.buffer += chunkContent]. *)
Definition addToBuffer (buffer chunkText : string) : string :=
  if (chunkText =? "")%string then buffer else buffer ++ chunkText.

(** [{ ...chunk, content: `\n${text}\n` }]. *)
Definition synthesized (chunk : Chunk) (text : string) : Chunk :=
  {| content := ContentString (newline ++ text ++ newline)%string;
     extra := extra chunk |}.

(** The [try]/[catch] of the loop body: the tool calls made, the text of
    the chunk to yield and the world afterwards. *)
Definition dispatch (t : ToolName) (args : Args) (w : World)
  : list Event * string * World :=
  match tools t with
  | None => ([], ("Error: " ++ errorText (toolNotAvailable t))%string, w)
  | Some tool =>
      let '(outcome, w') := callTool tool args w in
      match outcome with
      | inl result =>
          match format t result with
          | inl formattedResult => ([EvCall t tool args], formattedResult, w')
          | inr err =>
              ([EvCall t tool args], ("Error: " ++ errorText err)%string, w')
          end
      | inr err =>
          ([EvCall t tool args], ("Error: " ++ errorText err)%string, w')
      end
  end.

(** The [while (blockInfo)] loop.  [None] only when [fuel] runs out. *)
Fixpoint dispatchLoop (fuel : nat) (chunk : Chunk) (buffer : string)
    (w : World) : option (list Event * string * World) :=
  match fuel with
  | 0 => None
  | S fuel' =>
      match findCompleteBlock buffer with
      | None => Some ([EvScan buffer None], buffer, w)
      | Some blockInfo =>
          let args := buildArgs (toolName blockInfo) (block blockInfo) in
          let '(calls, text, w1) := dispatch (toolName blockInfo) args w in
          match dispatchLoop fuel' chunk
                  (Js.substringFrom (endIdx blockInfo) buffer) w1 with
          | None => None
          | Some (events, buffer', w2) =>
              Some (EvScan buffer (Some blockInfo)
                      :: calls ++ EvYield (synthesized chunk text) :: events,
                    buffer', w2)
          end
      end
  end.

(** [processChunk], driven to completion by its consumer.  The state of
    the streamer is its [buffer]. *)
Definition processChunk (buffer : string) (chunk : Chunk) (w : World)
  : option (list Event * string * World) :=
  let buffer1 := addToBuffer buffer (chunkContent chunk) in
  match dispatchLoop (S (String.length buffer1)) chunk buffer1 w with
  | None => None
  | Some (events, buffer', w') => Some (EvYield chunk :: events, buffer', w')
  end.

(** The [for await] loop of [LLMChainRunner.run] over a finite stream. *)
Fixpoint processStream (chunks : list Chunk) (buffer : string) (w : World)
  : option (list Event * string * World) :=
  match chunks with
  | [] => Some ([], buffer, w)
  | chunk :: chunks' =>
      match processChunk buffer chunk w with
      | None => None
      | Some (events1, buffer1, w1) =>
          match processStream chunks' buffer1 w1 with
          | None => None
          | Some (events2, buffer2, w2) =>
              Some (events1 ++ events2, buffer2, w2)
          end
      end
  end.

(** The tool calls of a trace. *)
Fixpoint callsOf (events : list Event) : list (ToolName * Tool * Args) :=
  match events with
  | [] => []
  | EvCall t tool args :: rest => (t, tool, args) :: callsOf rest
  | _ :: rest => callsOf rest
  end.

(** The shape of the events of one run of the loop that starts on
    [buffer]: a scan that finds nothing ends it; a scan that finds a block
    is followed by at most one tool call, then by the synthesized chunk,
    and only then by the events of the next round, which starts on what
    is left of the buffer. *)
Inductive LoopTrace (chunk : Chunk) : string -> list Event -> Prop :=
  | LoopDone (buffer : string) :
      findCompleteBlock buffer = None ->
      LoopTrace chunk buffer [EvScan buffer None]
  | LoopBlock (buffer : string) (info : BlockInfo) (calls : list Event)
      (text : string) (rest : list Event) :
      findCompleteBlock buffer = Some info ->
      calls = []
      \/ (exists tool,
            tools (toolName info) = Some tool
            /\ calls = [EvCall (toolName info) tool
                          (buildArgs (toolName info) (block info))]) ->
      LoopTrace chunk (Js.substringFrom (endIdx info) buffer) rest ->
      LoopTrace chunk buffer
        (EvScan buffer (Some info)
           :: calls ++ EvYield (synthesized chunk text) :: rest).


End Streamer.

Arguments EvYield {Extra Tool} c.
Arguments EvScan {Extra Tool} buffer found.
Arguments EvCall {Extra Tool} t tool args.

(** ** The review pane (ApplyViewRoot) *)

(** A [Change] of the diff library, as the pane reads it: [added] and
    [removed] are [false] when the property is missing. *)
Record Change : Type := mkChange {
  changeValue : string;
  changeAdded : bool;
  changeRemoved : bool
}.

(** An [ExtendedChange] object.  [oid] is the identity of the object: the
    pane looks entries up with [===], so two objects with equal fields are
    still two entries.  [accepted] is [true], [false] or [null]. *)
Record ExtendedChange : Type := mkExtended {
  oid : nat;
  value : string;
  added : bool;
  removed : bool;
  accepted : option bool
}.

(** The [diff] state together with the next unused object identity. *)
Record ReviewState : Type := mkReview {
  nextOid : nat;
  diff : list ExtendedChange
}.

(** [change === blockChange]. *)
Definition sameObject (a b : ExtendedChange) : bool := (oid a =? oid b)%nat.

(** [{ ...change, accepted: decision }] allocated at identity [fresh]. *)
Definition withAccepted (fresh : nat) (change : ExtendedChange)
    (decision : option bool) : ExtendedChange :=
  {| oid := fresh;
     value := value change;
     added := added change;
     removed := removed change;
     accepted := decision |}.

(** The initial state: [state.changes.map(change => ({...change,
    accepted: null}))], one new object per change. *)
Fixpoint extendFrom (fresh : nat) (changes : list Change)
  : list ExtendedChange :=
  match changes with
  | [] => []
  | c :: rest =>
      {| oid := fresh;
         value := changeValue c;
         added := changeAdded c;
         removed := changeRemoved c;
         accepted := None |} :: extendFrom (S fresh) rest
  end.

Definition initialReview (changes : list Change) : ReviewState :=
  {| nextOid := List.length changes; diff := extendFrom 0 changes |}.

Definition isNeutral (change : ExtendedChange) : bool :=
  negb (added change) && negb (removed change).

(** The filter callback of [buildContentFromDiff]. *)
Definition keptInContent (change : ExtendedChange) : bool :=
  if added change then
    match accepted change with Some true => true | _ => false end
  else if removed change then
    match accepted change with Some false => true | _ => false end
  else true.

Definition buildContentFromDiff (changes : list ExtendedChange) : string :=
  Js.join (map value (filter keptInContent changes)).

(** The filter callback of [buildPreviewResultFromDiff]. *)
Definition keptInPreview (change : ExtendedChange) : bool :=
  if added change then
    match accepted change with Some false => false | _ => true end
  else if removed change then
    match accepted change with Some false => true | _ => false end
  else true.

Definition buildPreviewResultFromDiff (changes : list ExtendedChange)
  : string :=
  Js.join (map value (filter keptInPreview changes)).

Definition originalContent (diff : list ExtendedChange) : string :=
  Js.join (map value (filter (fun change => negb (added change)) diff)).

Definition previewContent (diff : list ExtendedChange) : string :=
  buildPreviewResultFromDiff diff.

Definition proposedContent (diff : list ExtendedChange) : string :=
  Js.join (map value (filter (fun change => negb (removed change)) diff)).

(** [arr.findIndex(p)]; [None] stands for -1. *)
Fixpoint findIndex (A : Type) (p : A -> bool) (l : list A) : option nat :=
  match l with
  | [] => None
  | x :: rest => if p x then Some 0 else option_map S (findIndex p rest)
  end.

(** [arr[index] = x] for an index inside the array. *)
Fixpoint assignAt (A : Type) (index : nat) (x : A) (l : list A) : list A :=
  match l, index with
  | [], _ => []
  | _ :: rest, 0 => x :: rest
  | y :: rest, S index' => y :: assignAt index' x rest
  end.

(** The callback of [block.forEach] in [acceptBlock], [rejectBlock] and
    the Revert button, which differ in the decision they store. *)
Definition decideEntry (decision : option bool) (st : ReviewState)
    (blockChange : ExtendedChange) : ReviewState :=
  match findIndex (fun change => sameObject change blockChange) (diff st) with
  | None => st
  | Some index =>
      match nth_error (diff st) index with
      | None => st
      | Some old =>
          {| nextOid := S (nextOid st);
             diff := assignAt index
                       (withAccepted (nextOid st) old decision) (diff st) |}
      end
  end.

(** The updater passed to [setDiff]; [changeBlocks] is the grouping the
    pane computed when it rendered. *)
Definition decideBlock (decision : option bool)
    (changeBlocks : list (list ExtendedChange)) (blockIndex : nat)
    (prev : ReviewState) : ReviewState :=
  match nth_error changeBlocks blockIndex with
  | None => prev
  | Some blk => fold_left (decideEntry decision) blk prev
  end.

Definition acceptBlock := decideBlock (Some true).
Definition rejectBlock := decideBlock (Some false).
Definition revertBlock := decideBlock None.

Definition isChanged (change : ExtendedChange) : bool :=
  added change || removed change.

(** Modelled from the spec: [getChangeBlocks] of composerUtils, which the
    pane imports and whose body is not among the sources.  The spec (4.4)
    walks the sequence once with a current-block accumulator and starts a
    new block whenever the walk passes between a changed (added or
    removed) and an unchanged entry; each maximal run of one
    classification is one block.  [current] is the accumulator and
    [changed] its classification. *)
Fixpoint groupWalk (current : list ExtendedChange) (changed : bool)
    (rest : list ExtendedChange) : list (list ExtendedChange) :=
  match rest with
  | [] => [current]
  | change :: rest' =>
      if Bool.eqb (isChanged change) changed
      then groupWalk (current ++ [change]) changed rest'
      else current :: groupWalk [change] (isChanged change) rest'
  end.

Definition getChangeBlocks (changes : list ExtendedChange)
  : list (list ExtendedChange) :=
  match changes with
  | [] => []
  | change :: rest => groupWalk [change] (isChanged change) rest
  end.

(** *** Statements about the pane, in the words of the specification *)

(** The data model allows an added entry, a removed entry or a neutral
    one: never both flags at once. *)
Definition wellFormedChange (change : ExtendedChange) : Prop :=
  added change && removed change = false.

(** The committed-content rule as the specification words it. *)
Definition committedBySpec (change : ExtendedChange) : Prop :=
  isNeutral change = true
  \/ (added change = true /\ accepted change = Some true)
  \/ (removed change = true /\ accepted change = Some false).

Definition committedBySpecb (change : ExtendedChange) : bool :=
  isNeutral change
  || (added change
      && match accepted change with Some true => true | _ => false end)
  || (removed change
      && match accepted change with Some false => true | _ => false end).

(** The specification's reading of "accept block": the decision follows the
    role of the entry.  [before] is an entry of the block, [after] the
    entry at the same place once the block is accepted. *)
Definition acceptedByRole (before after : ExtendedChange) : Prop :=
  (added before = true -> accepted after = Some true)
  /\ (removed before = true -> accepted after = Some false)
  /\ (isNeutral before = true -> accepted after = accepted before).

(** Membership of an object in a block, by identity. *)
Definition inBlock (blk : list ExtendedChange) (change : ExtendedChange)
  : bool :=
  existsb (sameObject change) blk.

(** Every object of the heap was allocated below [nextOid], and the
    entries of [diff] are pairwise distinct objects. *)
Definition wellFormedReview (st : ReviewState) : Prop :=
  NoDup (map oid (diff st))
  /\ Forall (fun change => oid change < nextOid st) (diff st).

(** Two entries that agree on everything the views may depend on: the
    text, the two flags and, unless the entry is neutral, the decision. *)
Definition agreeOffNeutral (a b : ExtendedChange) : Prop :=
  value a = value b
  /\ added a = added b
  /\ removed a = removed b
  /\ (isNeutral a = false -> accepted a = accepted b).

Definition demoChanges : list Change :=
  [mkChange "A" false false; mkChange "B" false true; mkChange "C" true false].

Definition demoDecided : list ExtendedChange :=
  [mkExtended 0 "A" false false None;
   mkExtended 1 "B" false true (Some false);
   mkExtended 2 "C" true false None;
   mkExtended 3 "D" true false (Some true);
   mkExtended 4 "E" false true None].


Definition demoDecidedOther : list ExtendedChange :=
  [mkExtended 7 "A" false false (Some true);
   mkExtended 1 "B" false true (Some false);
   mkExtended 2 "C" true false None;
   mkExtended 3 "D" true false (Some true);
   mkExtended 4 "E" false true None].

(** [decideEntry] seen as one pass over the array: the first entry that is
    the object [blockChange] is replaced by a copy with the decision. *)
Fixpoint replaceFirst (A : Type) (p : A -> bool) (f : A -> A) (l : list A)
  : list A :=
  match l with
  | [] => []
  | x :: rest => if p x then f x :: rest else x :: replaceFirst p f rest
  end.

(** How an entry of [diff] looks once the entries of [done] were decided:
    text and flags are kept; an entry of [done] carries [decision] and is
    an object allocated at or after [base]; any other entry is the very
    same object. *)
Definition entryAfter (base : nat) (decision : option bool)
    (done : list ExtendedChange) (before after : ExtendedChange) : Prop :=
  value after = value before
  /\ added after = added before
  /\ removed after = removed before
  /\ (if inBlock done before
      then accepted after = decision /\ base <= oid after
      else after = before).

(** The changed entries [B] and [C] of the scenario, as objects of the
    initial state. *)
Definition demoBlock : list ExtendedChange :=
  [mkExtended 1 "B" false true None; mkExtended 2 "C" true false None].

(** A small instance of the collaborators: every tool but [deleteNote] is
    registered, a call records its arguments in the world and succeeds. *)
Definition demoTools (t : ToolName) : option nat :=
  match t with
  | deleteNote => None
  | _ => Some 7
  end.

Definition demoCall (tool : nat) (args : Args) (w : list Args)
  : (string + Thrown) * list Args :=
  (inl "ok"%string, args :: w).

Definition demoFormat (t : ToolName) (r : string) : string + Thrown :=
  inl (tagText t ++ ":" ++ r)%string.


(** The scenario stream of the specification and one way to cut it. *)
Definition demoStream : string :=
  "he<writeToFile><path>a.md</path><content>hi</content></writeToFile>llo".

Definition demoChunks : list (Chunk unit) :=
  [mkChunk (ContentString "he<writeToFile><path>a.md</pa") tt;
   mkChunk
     (ContentArray
        [mkItem "text" (Some "th><content>hi</content>"%string);
         mkItem "image" None;
         mkItem "text" (Some "</writeT"%string)])
     tt;
   mkChunk (ContentString "oFile>llo") tt].

(** A stream in which a complete block lies inside another one, cut right
    after the inner block. *)
Definition nestedChunks : list (Chunk unit) :=
  [mkChunk (ContentString "<moveFile><writeToFile><path>a</path></writeToFile>") tt;
   mkChunk (ContentString "</moveFile>") tt].

Definition nestedWhole : Chunk unit :=
  mkChunk
    (ContentString
       "<moveFile><writeToFile><path>a</path></writeToFile></moveFile>")
    tt.

(** ** More of the review pane *)

(** [diff.map(change => cond ? { ...change, accepted: d } : change)]: an
    entry for which [rule] gives a decision becomes a new object, any
    other entry stays the object it was.  The result is the next unused
    identity and the new array. *)
Fixpoint mapDecide (rule : ExtendedChange -> option (option bool))
    (fresh : nat) (changes : list ExtendedChange)
  : nat * list ExtendedChange :=
  match changes with
  | [] => (fresh, [])
  | change :: rest =>
      match rule change with
      | Some decision =>
          let '(next, rest') := mapDecide rule (S fresh) rest in
          (next, withAccepted fresh change decision :: rest')
      | None =>
          let '(next, rest') := mapDecide rule fresh rest in
          (next, change :: rest')
      end
  end.

(** The callbacks of the four [diff.map] calls of the bottom bar. *)
Definition acceptRule (change : ExtendedChange) : option (option bool) :=
  match accepted change with
  | None => Some (Some true)
  | Some _ => None
  end.

Definition rejectRule (change : ExtendedChange) : option (option bool) :=
  match accepted change with
  | None => Some (Some false)
  | Some _ => None
  end.

Definition acceptAllRule (change : ExtendedChange) : option (option bool) :=
  if added change then Some (Some true)
  else if removed change then Some (Some false)
  else None.

Definition rejectAllRule (change : ExtendedChange) : option (option bool) :=
  if added change || removed change then Some (Some false) else None.

(** [updatedDiff] of a handler of the bottom bar. *)
Definition updatedDiff (rule : ExtendedChange -> option (option bool))
    (st : ReviewState) : list ExtendedChange :=
  snd (mapDecide rule (nextOid st) (diff st)).

(** [newContent], the text that [handleAccept], [handleReject],
    [handleAcceptAll] and [handleRejectAll] hand to
    [applyDecidedChangesToFile], which writes it with [vault.modify]. *)
Definition handleAcceptContent (st : ReviewState) : string :=
  buildContentFromDiff (updatedDiff acceptRule st).

Definition handleRejectContent (st : ReviewState) : string :=
  buildContentFromDiff (updatedDiff rejectRule st).

Definition handleAcceptAllContent (st : ReviewState) : string :=
  buildContentFromDiff (updatedDiff acceptAllRule st).

Definition handleRejectAllContent (st : ReviewState) : string :=
  buildContentFromDiff (updatedDiff rejectAllRule st).

(** [blockStatus] of [renderRightPane]. *)
Inductive BlockStatus : Type :=
  | StatusAccepted | StatusRejected | StatusUndecided | StatusUnchanged.

Definition acceptedIs (b : bool) (change : ExtendedChange) : bool :=
  match accepted change with
  | Some b' => Bool.eqb b' b
  | None => false
  end.

Definition blockStatus (blk : list ExtendedChange) : BlockStatus :=
  let hasChanges := existsb (fun change => added change || removed change) blk in
  if hasChanges then
    if forallb
         (fun change =>
            negb (added change) && negb (removed change)
            || acceptedIs true change) blk
    then StatusAccepted
    else if forallb
              (fun change =>
                 negb (added change) && negb (removed change)
                 || acceptedIs false change) blk
    then StatusRejected
    else StatusUndecided
  else StatusUnchanged.

(** The test of the [for] loop of [focusNextChangeBlock]. *)
Definition needsDecision (blk : list ExtendedChange) : bool :=
  let hasChanges := existsb (fun change => added change || removed change) blk in
  let isUndecided :=
    existsb
      (fun change =>
         (added change || removed change)
         && match accepted change with None => true | Some _ => false end)
      blk in
  hasChanges && isUndecided.

(** The [for] loop of [focusNextChangeBlock] from index [i] on, [blocks]
    being [changeBlocks] from that index: the first index whose block
    passes the test; [None] stands for -1. *)
Fixpoint scanBlocks (i : nat) (blocks : list (list ExtendedChange))
  : option nat :=
  match blocks with
  | [] => None
  | blk :: rest =>
      if needsDecision blk then Some i else scanBlocks (S i) rest
  end.

Definition nextBlockIndex (changeBlocks : list (list ExtendedChange))
    (currentBlockIndex : nat) : option nat :=
  scanBlocks (currentBlockIndex + 1) (skipn (currentBlockIndex + 1) changeBlocks).

(** What the pane shows for one entry of an undecided block. *)
Inductive EntryView : Type :=
  | ViewWordDiff (oldLine newLine : string)
  | ViewHidden
  | ViewPlain (text : string).

(** [block.findIndex((c, i) => p(c) && i !== changeIndex)], giving the
    entry found. *)
Fixpoint findOther (p : ExtendedChange -> bool) (changeIndex i : nat)
    (blk : list ExtendedChange) : option ExtendedChange :=
  match blk with
  | [] => None
  | c :: rest =>
      if p c && negb (i =? changeIndex)%nat then Some c
      else findOther p changeIndex (S i) rest
  end.

(** The callback of [block.map] for an undecided block. *)
Definition renderEntry (blk : list ExtendedChange) (change : ExtendedChange)
    (changeIndex : nat) : EntryView :=
  let plain :=
    if removed change then
      match findOther added changeIndex 0 blk with
      | Some _ => ViewHidden
      | None => ViewPlain (value change)
      end
    else ViewPlain (value change) in
  if added change then
    match findOther removed changeIndex 0 blk with
    | Some removedEntry => ViewWordDiff (value removedEntry) (value change)
    | None => plain
    end
  else plain.

(** ** The folder of a path, as [getFile] computes it *)

Module Path.

(** [s.split("/")]. *)
Fixpoint split (s : string) : list string :=
  match s with
  | EmptyString => [EmptyString]
  | String c s' =>
      if Ascii.eqb c "/"%char then EmptyString :: split s'
      else match split s' with
           | piece :: pieces => String c piece :: pieces
           | [] => [String c EmptyString]
           end
  end.

(** [s.includes("/")]. *)
Fixpoint includesSlash (s : string) : bool :=
  match s with
  | EmptyString => false
  | String c s' => Ascii.eqb c "/"%char || includesSlash s'
  end.

(** [file_path.split("/").slice(0, -1).join("/")]. *)
Definition folderPath (file_path : string) : string :=
  String.concat "/" (removelast (split file_path)).

End Path.

(** ** More of the streamer *)

Section StreamerViews.

Variables Extra Tool : Type.

(** The chunks a trace yields, in order. *)
Fixpoint yieldsOf (events : list (Event Extra Tool)) : list (Chunk Extra) :=
  match events with
  | [] => []
  | EvYield c :: rest => c :: yieldsOf rest
  | _ :: rest => yieldsOf rest
  end.

(** The scans of a trace that found a block. *)
Fixpoint blocksOf (events : list (Event Extra Tool)) : list BlockInfo :=
  match events with
  | [] => []
  | EvScan _ (Some info) :: rest => info :: blocksOf rest
  | _ :: rest => blocksOf rest
  end.

End StreamerViews.

Section CallsFor.

Variable Tool : Type.
Variable tools : ToolName -> option Tool.

(** The calls that found blocks stand for: one for a block whose tag
    has a registered tool, none otherwise. *)
Definition callsFor (infos : list BlockInfo)
  : list (ToolName * Tool * Args) :=
  flat_map
    (fun info =>
       match tools (toolName info) with
       | Some tool =>
           [(toolName info, tool, buildArgs (toolName info) (block info))]
       | None => []
       end)
    infos.

End CallsFor.

(** What one element of an array-valued content adds to the text of its
    chunk. *)
Definition itemPayload (item : ContentItem) : string :=
  if (itemType item =? "text")%string
  then match itemText item with
       | Some t => t
       | None => EmptyString
       end
  else EmptyString.

Definition demoUndecided : ReviewState := initialReview demoChanges.

Definition demoPartly : ReviewState :=
  {| nextOid := 8; diff := demoDecided |}.

(** The entry as [rule] leaves it, its identity aside. *)
Definition afterRule (rule : ExtendedChange -> option (option bool))
    (change : ExtendedChange) : ExtendedChange :=
  match rule change with
  | Some decision => withAccepted (oid change) change decision
  | None => change
  end.

(** The well-formedness of the data model on a [Change]. *)
Definition wellFormedSource (change : Change) : Prop :=
  changeAdded change && changeRemoved change = false.

(** A block that still holds an added or removed entry without decision. *)
Definition hasUndecided (blk : list ExtendedChange) : Prop :=
  exists change,
    In change blk /\ isChanged change = true /\ accepted change = None.

Definition demoBlocks : list (list ExtendedChange) :=
  [[mkExtended 0 "A" false false None];
   [mkExtended 1 "B" false true (Some true);
    mkExtended 2 "C" true false (Some true)];
   [mkExtended 3 "D" false false None];
   [mkExtended 4 "E" true false None]].

(** A tool call that throws after it changed the world. *)
Definition demoFailingCall (tool : nat) (args : Args) (w : list Args)
  : (string + Thrown) * list Args :=
  (inr {| message := Some "disk full"%string;
          rendered := "Error: disk full"%string |},
   args :: w).

Definition demoUnfinished : list (Chunk unit) :=
  [mkChunk (ContentString "he<writeToFile><pa") tt;
   mkChunk ContentAbsent tt;
   mkChunk (ContentString "th>a.md</path></writeToFil") tt].

Definition demoTwoBlocks : Chunk unit :=
  mkChunk
    (ContentString
       "<createFolder><path>x</path></createFolder><moveFile></moveFile>")
    tt.

(** Empty, or not starting with white space. *)
Definition headFree (s : string) : Prop :=
  match s with
  | EmptyString => True
  | String c _ => Js.isWhiteSpace c = false
  end.

(** ** The request of LLMChainRunner.constructMessages *)

Module Chain.

(** A message of the converter or an entry of the chat history. *)
Record BaseMessage : Type := mkBase {
  role : string;
  content : string
}.

(** An item of an array-valued [userMessage.content]: its [type], its
    [text] and, in [rest], its other fields. *)
Record ContentPart (Rest : Type) : Type := mkPart {
  partType : string;
  partText : option string;
  partRest : Rest
}.

Inductive MessageContent (Rest : Type) : Type :=
  | TextContent (text : string)
  | PartsContent (parts : list (ContentPart Rest)).

Record Message (Rest : Type) : Type := mkMessage {
  messageRole : string;
  messageContent : MessageContent Rest
}.

Section ConstructMessages.

Variables Envelope Rest : Type.

(** [LayerToMessagesConverter.convert] and the constant
    [COMPOSER_OUTPUT_INSTRUCTIONS]. *)
Variable convert : Envelope -> list BaseMessage.
Variable COMPOSER_OUTPUT_INSTRUCTIONS : string.

Definition composerPrompt : string :=
  ("<OUTPUT_FORMAT>" ++ newline ++ COMPOSER_OUTPUT_INSTRUCTIONS
     ++ newline ++ "</OUTPUT_FORMAT>")%string.

Definition finalUserText (userMessageContent : BaseMessage) : string :=
  (content userMessageContent ++ newline ++ newline ++ composerPrompt)%string.

(** [{ ...item, text: finalUserText }] for the items of type ["text"]. *)
Definition updateItem (text : string) (item : ContentPart Rest)
  : ContentPart Rest :=
  if (partType item =? "text")%string
  then {| partType := partType item;
          partText := Some text;
          partRest := partRest item |}
  else item.

Definition plain (m : BaseMessage) : Message Rest :=
  {| messageRole := role m; messageContent := TextContent Rest (content m) |}.

(** [constructMessages]: [None] when the context envelope is missing
    and the method throws.  [userContent] is [userMessage.content] when
    it is an array. *)
Definition constructMessages (contextEnvelope : option Envelope)
    (chatHistory : list BaseMessage)
    (userContent : option (list (ContentPart Rest)))
  : option (list (Message Rest)) :=
  match contextEnvelope with
  | None => None
  | Some envelope =>
      let baseMessages := convert envelope in
      let systemPart :=
        match find (fun m => (role m =? "system")%string) baseMessages with
        | Some systemMessage => [plain systemMessage]
        | None => []
        end in
      let historyPart := map plain chatHistory in
      let userPart :=
        match find (fun m => (role m =? "user")%string) baseMessages with
        | None => []
        | Some userMessageContent =>
            match userContent with
            | Some items =>
                [{| messageRole := "user"%string;
                    messageContent :=
                      PartsContent
                        (map (updateItem (finalUserText userMessageContent))
                           items) |}]
            | None =>
                [{| messageRole := "user"%string;
                    messageContent :=
                      TextContent Rest (finalUserText userMessageContent) |}]
            end
        end in
      Some (systemPart ++ historyPart ++ userPart)
  end.

End ConstructMessages.

End Chain.

(** The messages of the converter that [constructMessages] reads: the
    first one of role ["system"] and the first one of role ["user"]. *)
Definition usedMessages (baseMessages : list Chain.BaseMessage)
  : list Chain.BaseMessage :=
  match find (fun m => (Chain.role m =? "system")%string) baseMessages with
  | Some m => [m]
  | None => []
  end
  ++ match find (fun m => (Chain.role m =? "user")%string) baseMessages with
     | Some m => [m]
     | None => []
     end.

Definition demoBase : list Chain.BaseMessage :=
  [Chain.mkBase "assistant" "earlier answer";
   Chain.mkBase "user" "context and question";
   Chain.mkBase "system" "be brief";
   Chain.mkBase "user" "second user message"].

Definition demoParts : list (Chain.ContentPart nat) :=
  [Chain.mkPart "image_url" None 1; Chain.mkPart "image_url" None 2].

(** A well-formed [writeToFile] block in prose that mentions [<moveFile>]
    before the block and [</moveFile>] after it, cut right after the
    block. *)
Definition strayStream : string :=
  "use <moveFile> or <writeToFile><path>a.md</path><content>hi</content></writeToFile>, not </moveFile>".

Definition strayChunks : list (Chunk unit) :=
  [mkChunk
     (ContentString
        "use <moveFile> or <writeToFile><path>a.md</path><content>hi</content></writeToFile>")
     tt;
   mkChunk (ContentString ", not </moveFile>") tt].
(** * Properties of the review pane *)

Section ReviewFacts.

Lemma keptInContent_spec (change : ExtendedChange) :
  wellFormedChange change ->
  keptInContent change = committedBySpecb change.
Proof.
  unfold wellFormedChange, keptInContent, committedBySpecb, isNeutral.
  destruct (added change), (removed change), (accepted change) as [[|]|];
    simpl; intros H; congruence.
Qed.

Lemma committedBySpecb_iff (change : ExtendedChange) :
  committedBySpecb change = true <-> committedBySpec change.
Proof.
  unfold committedBySpecb, committedBySpec, isNeutral.
  destruct (added change), (removed change), (accepted change) as [[|]|];
    simpl; split; intros H; auto;
    try discriminate;
    repeat match goal with
           | H : _ \/ _ |- _ => destruct H
           | H : _ /\ _ |- _ => destruct H
           end;
    try discriminate; tauto.
Qed.

Lemma filter_pointwise (A : Type) (p q : A -> bool) (l : list A) :
  Forall (fun x => p x = q x) l -> filter p l = filter q l.
Proof.
  induction 1 as [|x l Hx _ IH]; simpl; [reflexivity|].
  rewrite Hx, IH. reflexivity.
Qed.

End ReviewFacts.

(** C2. On a sequence of well-formed changes the committed content is the
    join of the values of exactly the entries the specification names:
    neutral ones, added ones whose decision is [true] and removed ones
    whose decision is [false]; an undecided added or removed entry is left
    out. *)
Theorem buildContentFromDiff_keeps_exactly (changes : list ExtendedChange) :
  Forall wellFormedChange changes ->
  buildContentFromDiff changes
    = Js.join (map value (filter committedBySpecb changes))
  /\ (forall change, In change changes ->
        (keptInContent change = true <-> committedBySpec change))
  /\ (forall change, In change changes ->
        isNeutral change = false -> accepted change = None ->
        keptInContent change = false).
Proof.
  intros Hwf. split; [|split].
  - unfold buildContentFromDiff. f_equal. f_equal.
    apply filter_pointwise.
    eapply Forall_impl; [|exact Hwf].
    intros c Hc. now apply keptInContent_spec.
  - intros c Hin. rewrite Forall_forall in Hwf.
    rewrite (keptInContent_spec (Hwf c Hin)).
    apply committedBySpecb_iff.
  - intros c _ Hn Hu. unfold keptInContent, isNeutral in *.
    rewrite Hu. destruct (added c), (removed c); simpl in *; congruence.
Qed.

Lemma buildContentFromDiff_keeps_exactly_witness :
  Forall wellFormedChange demoDecided
  /\ buildContentFromDiff demoDecided = "ABD".
Proof.
  assert (Hwf : Forall wellFormedChange demoDecided)
    by (repeat constructor).
  split; [exact Hwf|].
  rewrite (proj1 (buildContentFromDiff_keeps_exactly Hwf)).
  reflexivity.
Defined.

(** C3. The scenario [A neutral, B removed, C added] reviewed as one block:
    accepting the block commits ["A" + "C"], rejecting it commits
    ["A" + "B"]. *)
Theorem accept_reject_single_block_scenario :
  let st0 := initialReview demoChanges in
  let changeBlocks := [diff st0] in
  buildContentFromDiff (diff (acceptBlock changeBlocks 0 st0))
    = ("A" ++ "C")%string
  /\ buildContentFromDiff (diff (rejectBlock changeBlocks 0 st0))
    = ("A" ++ "B")%string.
Proof.
  split; reflexivity.
Qed.

Section Grouping.

Lemma groupWalk_concat (rest current : list ExtendedChange) (changed : bool) :
  concat (groupWalk current changed rest) = current ++ rest.
Proof.
  revert current changed.
  induction rest as [|change rest IH]; intros current changed; simpl.
  - reflexivity.
  - destruct (Bool.eqb (isChanged change) changed); simpl.
    + rewrite IH, <- app_assoc. reflexivity.
    + rewrite IH. reflexivity.
Qed.

End Grouping.

(** C7. The blocks of [getChangeBlocks], concatenated in order, are the
    input sequence; the empty sequence has no block. *)
Theorem getChangeBlocks_concat (changes : list ExtendedChange) :
  concat (getChangeBlocks changes) = changes
  /\ getChangeBlocks [] = [].
Proof.
  split; [|reflexivity].
  destruct changes as [|change rest]; simpl; [reflexivity|].
  apply groupWalk_concat.
Qed.

Section Noninterference.

Lemma agree_filter_values (p : ExtendedChange -> bool)
    (d1 d2 : list ExtendedChange) :
  (forall a b, agreeOffNeutral a b -> p a = p b) ->
  Forall2 agreeOffNeutral d1 d2 ->
  map value (filter p d1) = map value (filter p d2).
Proof.
  intros Hp. induction 1 as [|a b d1 d2 Hab _ IH]; simpl; [reflexivity|].
  rewrite (Hp a b Hab). destruct (p b); simpl; [|exact IH].
  destruct Hab as [Hv _]. rewrite Hv, IH. reflexivity.
Qed.

Ltac by_flags a b :=
  unfold agreeOffNeutral, isNeutral;
  intros (_ & Ha & Hr & Hd);
  rewrite <- Ha, <- Hr;
  destruct (added a), (removed a); simpl in *;
  try reflexivity; rewrite (Hd eq_refl); reflexivity.

Lemma agree_keptInContent (a b : ExtendedChange) :
  agreeOffNeutral a b -> keptInContent a = keptInContent b.
Proof. unfold keptInContent. by_flags a b. Qed.

Lemma agree_keptInPreview (a b : ExtendedChange) :
  agreeOffNeutral a b -> keptInPreview a = keptInPreview b.
Proof. unfold keptInPreview. by_flags a b. Qed.

End Noninterference.

(** C10. Two decision assignments on one change sequence that differ only
    on neutral entries give the same committed content, the same preview
    and the same original view. *)
Theorem views_ignore_neutral_decisions (d1 d2 : list ExtendedChange) :
  Forall2 agreeOffNeutral d1 d2 ->
  buildContentFromDiff d1 = buildContentFromDiff d2
  /\ buildPreviewResultFromDiff d1 = buildPreviewResultFromDiff d2
  /\ previewContent d1 = previewContent d2
  /\ originalContent d1 = originalContent d2.
Proof.
  intros H.
  assert (Hpre : buildPreviewResultFromDiff d1 = buildPreviewResultFromDiff d2).
  { unfold buildPreviewResultFromDiff. f_equal.
    apply agree_filter_values; [apply agree_keptInPreview | exact H]. }
  repeat split; try exact Hpre.
  - unfold buildContentFromDiff. f_equal.
    apply agree_filter_values; [apply agree_keptInContent | exact H].
  - unfold originalContent. f_equal.
    apply agree_filter_values; [|exact H].
    intros a b (_ & Ha & _). now rewrite Ha.
Qed.

Lemma views_ignore_neutral_decisions_witness :
  Forall2 agreeOffNeutral demoDecided demoDecidedOther
  /\ buildContentFromDiff demoDecided = buildContentFromDiff demoDecidedOther.
Proof.
  assert (H : Forall2 agreeOffNeutral demoDecided demoDecidedOther).
  { repeat constructor; simpl; discriminate. }
  split; [exact H|].
  exact (proj1 (views_ignore_neutral_decisions H)).
Defined.

Section BlockDecisions.

Variable decision : option bool.

Lemma decideEntry_replaceFirst (st : ReviewState) (x : ExtendedChange) :
  diff (decideEntry decision st x)
    = replaceFirst (fun change => sameObject change x)
        (fun old => withAccepted (nextOid st) old decision) (diff st).
Proof.
  unfold decideEntry.
  generalize (nextOid st) at 2 3 as fresh.
  generalize (S (nextOid st)) as next'.
  generalize (nextOid st) as next.
  intros next next' fresh.
  set (p := fun change => sameObject change x).
  set (f := fun old => withAccepted fresh old decision).
  assert (H : forall l,
             match findIndex p l with
             | Some index =>
                 match nth_error l index with
                 | Some old => assignAt index (f old) l
                 | None => l
                 end
             | None => l
             end = replaceFirst p f l).
  { induction l as [|y l IH]; simpl; [reflexivity|].
    destruct (p y); simpl; [reflexivity|].
    destruct (findIndex p l) as [i|]; simpl in *.
    - destruct (nth_error l i); simpl; rewrite <- IH; reflexivity.
    - rewrite <- IH. reflexivity. }
  rewrite <- H.
  destruct (findIndex p (diff st)) as [i|]; simpl; [|reflexivity].
  destruct (nth_error (diff st) i); reflexivity.
Qed.

Lemma decideEntry_nextOid (st : ReviewState) (x : ExtendedChange) :
  nextOid st <= nextOid (decideEntry decision st x).
Proof.
  unfold decideEntry.
  destruct (findIndex _ (diff st)) as [i|]; simpl; [|lia].
  destruct (nth_error (diff st) i); simpl; lia.
Qed.

Lemma inBlock_snoc (done : list ExtendedChange) (x a : ExtendedChange) :
  inBlock (done ++ [x]) a = inBlock done a || sameObject a x.
Proof.
  unfold inBlock. rewrite existsb_app. simpl.
  now rewrite orb_false_r.
Qed.

Lemma Forall2_weaken_in (A B : Type) (R Q : A -> B -> Prop)
    (l1 : list A) (l2 : list B) :
  (forall a b, In a l1 -> R a b -> Q a b) ->
  Forall2 R l1 l2 -> Forall2 Q l1 l2.
Proof.
  intros HRQ H. induction H as [|a b l1 l2 Hab _ IH]; constructor.
  - apply HRQ; [now left | exact Hab].
  - apply IH. intros a' b' Hin. apply HRQ. now right.
Qed.

(** Entries that are not the object [x] look the same after [x] joins
    the decided ones. *)
Lemma entryAfter_snoc (base : nat) (done : list ExtendedChange)
    (x a b : ExtendedChange) :
  (inBlock done a = false -> sameObject a x = false) ->
  entryAfter base decision done a b ->
  entryAfter base decision (done ++ [x]) a b.
Proof.
  unfold entryAfter. intros Hx (Hv & Ha & Hr & Hd).
  repeat split; try assumption.
  rewrite inBlock_snoc.
  destruct (inBlock done a); simpl; [exact Hd|].
  rewrite (Hx eq_refl). exact Hd.
Qed.

Lemma replaceFirst_entryAfter (base fresh : nat)
    (done : list ExtendedChange) (x : ExtendedChange)
    (orig cur : list ExtendedChange) :
  base <= fresh ->
  oid x < base ->
  NoDup (map oid orig) ->
  Forall2 (entryAfter base decision done) orig cur ->
  Forall2 (entryAfter base decision (done ++ [x])) orig
    (replaceFirst (fun change => sameObject change x)
       (fun old => withAccepted fresh old decision) cur).
Proof.
  intros Hfresh Hx Hnd H.
  induction H as [|a b orig cur Hab Hrest IH]; simpl; [constructor|].
  inversion Hnd as [|? ? Hnotin Hnd']; subst.
  destruct (sameObject b x) eqn:Hbx.
  - (* the head is the object looked for *)
    assert (Hfalse : inBlock done a = false).
    { destruct (inBlock done a) eqn:Hin; [|reflexivity].
      destruct Hab as (_ & _ & _ & Hd). rewrite Hin in Hd.
      unfold sameObject in Hbx. apply Nat.eqb_eq in Hbx. lia. }
    assert (Heq : b = a).
    { destruct Hab as (_ & _ & _ & Hd). now rewrite Hfalse in Hd. }
    subst b. constructor.
    + unfold entryAfter. simpl. repeat split.
      rewrite inBlock_snoc, Hbx, orb_true_r. split; [reflexivity|lia].
    + eapply Forall2_weaken_in; [|exact Hrest].
      intros a' b' Hin' Hab'. apply entryAfter_snoc; [|exact Hab'].
      intros _. unfold sameObject in *.
      apply Nat.eqb_eq in Hbx. apply Nat.eqb_neq. intros Heq.
      apply Hnotin. rewrite Hbx, <- Heq. now apply in_map.
  - constructor; [|apply IH; assumption].
    apply entryAfter_snoc; [|exact Hab].
    intros Hin. destruct Hab as (_ & _ & _ & Hd).
    rewrite Hin in Hd. now subst b.
Qed.

Lemma decideBlock_fold (blk done orig : list ExtendedChange)
    (base : nat) (cur : ReviewState) :
  base <= nextOid cur ->
  NoDup (map oid orig) ->
  Forall (fun change => oid change < base) blk ->
  Forall2 (entryAfter base decision done) orig (diff cur) ->
  Forall2 (entryAfter base decision (done ++ blk)) orig
    (diff (fold_left (decideEntry decision) blk cur)).
Proof.
  revert done cur.
  induction blk as [|x blk IH]; intros done cur Hbase Hnd Hblk H; simpl.
  - now rewrite app_nil_r.
  - inversion Hblk as [|? ? Hx Hblk']; subst.
    replace (done ++ x :: blk) with ((done ++ [x]) ++ blk)
      by (rewrite <- app_assoc; reflexivity).
    apply IH; try assumption.
    + etransitivity; [exact Hbase | apply decideEntry_nextOid].
    + rewrite decideEntry_replaceFirst.
      now apply replaceFirst_entryAfter.
Qed.

Lemma replaceFirst_oids (p : ExtendedChange -> bool) (fresh z : nat)
    (l : list ExtendedChange) :
  In z (map oid (replaceFirst p
                   (fun old => withAccepted fresh old decision) l)) ->
  In z (map oid l) \/ z = fresh.
Proof.
  induction l as [|y l IH]; simpl; [tauto|].
  destruct (p y); simpl.
  - intros [H|H]; [right; now symmetry | left; now right].
  - intros [H|H]; [left; now left|].
    destruct (IH H); [left; now right | now right].
Qed.

Lemma replaceFirst_wellFormed (p : ExtendedChange -> bool) (fresh : nat)
    (l : list ExtendedChange) :
  NoDup (map oid l) ->
  Forall (fun change => oid change < fresh) l ->
  NoDup (map oid (replaceFirst p
                    (fun old => withAccepted fresh old decision) l))
  /\ Forall (fun change => oid change < S fresh)
       (replaceFirst p (fun old => withAccepted fresh old decision) l).
Proof.
  induction l as [|y l IH]; simpl; intros Hnd Hlt.
  - split; constructor.
  - inversion Hnd as [|? ? Hnotin Hnd']; subst.
    inversion Hlt as [|? ? Hy Hlt']; subst.
    destruct (IH Hnd' Hlt') as [IHnd IHlt].
    destruct (p y); simpl.
    + split.
      * constructor; [|exact Hnd'].
        intros Hin. apply in_map_iff in Hin.
        destruct Hin as (c & Hc & Hin).
        rewrite Forall_forall in Hlt'. specialize (Hlt' c Hin). lia.
      * constructor; [simpl; lia|].
        eapply Forall_impl; [|exact Hlt']. simpl. intros; lia.
    + split.
      * constructor; [|exact IHnd].
        intros Hin. apply replaceFirst_oids in Hin.
        destruct Hin as [Hin|Hin]; [now apply Hnotin | lia].
      * constructor; [lia | exact IHlt].
Qed.

Lemma decideEntry_wellFormed (st : ReviewState) (x : ExtendedChange) :
  wellFormedReview st -> wellFormedReview (decideEntry decision st x).
Proof.
  intros Hwf. pose proof (decideEntry_replaceFirst st x) as Hd.
  unfold decideEntry in *.
  destruct (findIndex _ (diff st)) as [i|]; [|exact Hwf].
  destruct (nth_error (diff st) i); [|exact Hwf].
  destruct Hwf as [Hnd Hlt]. unfold wellFormedReview.
  simpl in *. rewrite Hd. now apply replaceFirst_wellFormed.
Qed.

Lemma decideBlock_wellFormed (blk : list ExtendedChange) (st : ReviewState) :
  wellFormedReview st ->
  wellFormedReview (fold_left (decideEntry decision) blk st).
Proof.
  revert st. induction blk as [|x blk IH]; intros st Hwf; simpl.
  - exact Hwf.
  - apply IH. now apply decideEntry_wellFormed.
Qed.

Lemma entryAfter_start (base : nat) (l : list ExtendedChange) :
  Forall2 (entryAfter base decision []) l l.
Proof.
  induction l; constructor; [|assumption].
  unfold entryAfter. simpl. tauto.
Qed.

(** What one block-level decision does to the state. *)
Lemma decideBlock_entries (st : ReviewState)
    (changeBlocks : list (list ExtendedChange)) (blockIndex : nat)
    (blk : list ExtendedChange) :
  wellFormedReview st ->
  nth_error changeBlocks blockIndex = Some blk ->
  Forall (fun change => oid change < nextOid st) blk ->
  wellFormedReview (decideBlock decision changeBlocks blockIndex st)
  /\ Forall2 (entryAfter (nextOid st) decision blk) (diff st)
       (diff (decideBlock decision changeBlocks blockIndex st)).
Proof.
  intros Hwf Hblk Hlt. unfold decideBlock. rewrite Hblk. split.
  - now apply decideBlock_wellFormed.
  - apply (@decideBlock_fold blk [] (diff st) (nextOid st) st);
      try assumption; [lia | apply Hwf | apply entryAfter_start].
Qed.

End BlockDecisions.

(** C4, as the specification states it, fails on the scenario block: the
    removed entry [B] ends with the decision [true], not [false]. *)
Lemma acceptBlock_not_by_role :
  let st0 := initialReview demoChanges in
  let st1 := acceptBlock [diff st0] 0 st0 in
  ~ (forall i before after,
        nth_error (diff st0) i = Some before ->
        nth_error (diff st1) i = Some after ->
        inBlock (diff st0) before = true ->
        acceptedByRole before after).
Proof.
  intros st0 st1 H.
  specialize (H 1 _ _ eq_refl eq_refl eq_refl).
  destruct H as (_ & Hremoved & _).
  specialize (Hremoved eq_refl). discriminate.
Qed.

(** C4, amended. [acceptBlock] gives every entry of the block the decision
    [true], whatever its role, keeps text and flags, and leaves every entry
    outside the block the object it was. *)
Theorem acceptBlock_accepts_every_entry (st : ReviewState)
    (changeBlocks : list (list ExtendedChange)) (blockIndex : nat)
    (blk : list ExtendedChange) :
  wellFormedReview st ->
  nth_error changeBlocks blockIndex = Some blk ->
  Forall (fun change => oid change < nextOid st) blk ->
  let st' := acceptBlock changeBlocks blockIndex st in
  wellFormedReview st'
  /\ Forall2
       (fun before after =>
          value after = value before
          /\ added after = added before
          /\ removed after = removed before
          /\ (if inBlock blk before
              then accepted after = Some true
              else after = before))
       (diff st) (diff st').
Proof.
  intros Hwf Hblk Hlt st'.
  destruct (decideBlock_entries (Some true) changeBlocks blockIndex Hwf Hblk Hlt)
    as [Hwf' Hall].
  split; [exact Hwf'|].
  eapply Forall2_impl; [|exact Hall].
  unfold entryAfter. intros a b (Hv & Ha & Hr & Hd).
  repeat split; try assumption.
  destruct (inBlock blk a); [apply Hd | exact Hd].
Qed.

Lemma acceptBlock_accepts_every_entry_witness :
  let st0 := initialReview demoChanges in
  let st1 := acceptBlock (getChangeBlocks (diff st0)) 1 st0 in
  wellFormedReview st0
  /\ Forall (fun change => oid change < nextOid st0) demoBlock
  /\ wellFormedReview st1
  /\ Forall2
       (fun before after =>
          value after = value before
          /\ added after = added before
          /\ removed after = removed before
          /\ (if inBlock demoBlock before
              then accepted after = Some true
              else after = before))
       (diff st0) (diff st1).
Proof.
  intros st0 st1.
  assert (Hwf : wellFormedReview st0).
  { split; simpl; repeat constructor; simpl; intuition; try discriminate. }
  assert (Hlt : Forall (fun change => oid change < nextOid st0) demoBlock).
  { repeat constructor. }
  split; [exact Hwf|]. split; [exact Hlt|].
  exact (@acceptBlock_accepts_every_entry st0
           (getChangeBlocks (diff st0)) 1 demoBlock Hwf eq_refl Hlt).
Defined.

(** * Properties of the streamer *)

(** ** Strings *)

Section StringFacts.

Lemma length_append (a b : string) :
  String.length (a ++ b) = String.length a + String.length b.
Proof. induction a as [|c a IH]; simpl; [|rewrite IH]; reflexivity. Qed.

Lemma append_assoc (a b c : string) :
  ((a ++ b) ++ c = a ++ (b ++ c))%string.
Proof. induction a as [|x a IH]; simpl; [|rewrite IH]; reflexivity. Qed.

Lemma append_empty_r (a : string) : (a ++ "" = a)%string.
Proof. induction a as [|x a IH]; simpl; [|rewrite IH]; reflexivity. Qed.

Lemma append_cancel_l (a b c : string) :
  (a ++ b = a ++ c)%string -> b = c.
Proof.
  induction a as [|x a IH]; simpl; intros H; [exact H|].
  injection H as H. now apply IH.
Qed.

Lemma substringFrom_append (a b : string) :
  Js.substringFrom (String.length a) (a ++ b) = b.
Proof. induction a as [|x a IH]; simpl; [destruct b|]; auto. Qed.

Lemma substringTo_append (a b : string) :
  Js.substringTo (String.length a) (a ++ b) = a.
Proof.
  induction a as [|x a IH]; simpl; [destruct b; reflexivity|].
  now rewrite IH.
Qed.

Lemma substringFrom_plus (n m : nat) (s : string) :
  Js.substringFrom (n + m) s = Js.substringFrom m (Js.substringFrom n s).
Proof.
  revert s. induction n as [|n IH]; intros s; simpl; [reflexivity|].
  destruct s as [|c s]; [destruct m; reflexivity | apply IH].
Qed.

Lemma substringFrom_length (n : nat) (s : string) :
  String.length (Js.substringFrom n s) = String.length s - n.
Proof.
  revert s. induction n as [|n IH]; intros [|c s]; simpl; auto.
Qed.

Lemma substring_split (n : nat) (s : string) :
  (Js.substringTo n s ++ Js.substringFrom n s)%string = s.
Proof.
  revert s. induction n as [|n IH]; intros [|c s]; simpl; auto.
  now rewrite IH.
Qed.

Lemma substringTo_length (n : nat) (s : string) :
  n <= String.length s -> String.length (Js.substringTo n s) = n.
Proof.
  revert s. induction n as [|n IH]; intros [|c s]; simpl; intros H;
    auto; try lia.
  rewrite IH; [reflexivity | lia].
Qed.

(** [prefix] holds exactly of the texts that begin with the pattern. *)
Lemma prefix_iff (a s : string) :
  String.prefix a s = true <-> exists r, s = (a ++ r)%string.
Proof.
  revert s. induction a as [|x a IH]; intros s.
  - destruct s; simpl; split; eauto.
  - destruct s as [|y s]; simpl.
    + split; [discriminate | intros [r H]; discriminate].
    + destruct (ascii_dec x y) as [->|Hne].
      * rewrite IH. split; intros [r H]; exists r.
        -- now rewrite H.
        -- now injection H.
      * split; [discriminate|]. intros [r H]. injection H as H1 _.
        now elim Hne.
Qed.

Lemma prefix_append (a r : string) : String.prefix a (a ++ r) = true.
Proof. apply prefix_iff. now exists r. Qed.

Lemma prefix_extend (a u v : string) :
  String.prefix a u = true -> String.prefix a (u ++ v) = true.
Proof.
  rewrite !prefix_iff. intros [r ->]. exists (r ++ v)%string.
  apply append_assoc.
Qed.

(** A pattern no longer than [u] that begins [u ++ v] begins [u]. *)
Lemma prefix_within (a u v : string) :
  String.length a <= String.length u ->
  String.prefix a (u ++ v) = true -> String.prefix a u = true.
Proof.
  revert u. induction a as [|x a IH]; intros u Hlen.
  - destruct u; reflexivity.
  - destruct u as [|y u]; simpl in *; [lia|].
    destruct (ascii_dec x y); [|discriminate].
    apply IH. lia.
Qed.

Lemma prefix_length (a s : string) :
  String.prefix a s = true -> String.length a <= String.length s.
Proof.
  rewrite prefix_iff. intros [r ->]. rewrite length_append. lia.
Qed.

End StringFacts.

(** ** The lazy star *)

Section LazyStar.

Variable close : string.

Local Arguments String.prefix : simpl never.

(** What a successful lazy match looks like: the closing tag right after
    a body in which the closing tag does not start anywhere. *)
Lemma lazyUntil_Some (u : string) (n : nat) :
  Regex.lazyUntil close u = Some n ->
  exists body rest,
    u = (body ++ close ++ rest)%string
    /\ n = String.length body + String.length close
    /\ forall j, j < String.length body ->
         String.prefix close (Js.substringFrom j u) = false.
Proof.
  revert n. induction u as [|c u IH]; intros n; simpl.
  - destruct (String.prefix close "") eqn:Hp; [|discriminate].
    intros H. injection H as <-.
    apply prefix_iff in Hp. destruct Hp as [r Hr].
    exists ""%string, r. simpl. repeat split; [exact Hr | intros; lia].
  - destruct (String.prefix close (String c u)) eqn:Hp.
    + intros H. injection H as <-.
      apply prefix_iff in Hp. destruct Hp as [r Hr].
      exists ""%string, r. simpl. repeat split; [exact Hr | intros; lia].
    + destruct (Regex.lazyUntil close u) as [k|]; [|discriminate].
      simpl. intros H. injection H as <-.
      destruct (IH k eq_refl) as (body & rest & Hu & Hk & Hmin).
      exists (String c body), rest. simpl. repeat split.
      * now rewrite Hu.
      * now rewrite Hk.
      * intros [|j] Hj; simpl; [exact Hp | apply Hmin; lia].
Qed.

Lemma lazyUntil_here (s : string) :
  String.prefix close s = true ->
  Regex.lazyUntil close s = Some (String.length close).
Proof. intros H. destruct s; simpl; now rewrite H. Qed.

(** A closing tag somewhere ahead makes the lazy match succeed. *)
Lemma lazyUntil_complete (mid rest : string) :
  Regex.lazyUntil close (mid ++ close ++ rest) <> None.
Proof.
  induction mid as [|c mid IH]; simpl.
  - rewrite lazyUntil_here; [discriminate | apply prefix_append].
  - destruct (String.prefix close _); [discriminate|].
    destruct (Regex.lazyUntil close _); [discriminate | contradiction].
Qed.

Lemma lazyUntil_bounds (u : string) (n : nat) :
  Regex.lazyUntil close u = Some n ->
  String.length close <= n <= String.length u.
Proof.
  intros H. destruct (lazyUntil_Some _ H) as (body & rest & -> & -> & _).
  rewrite !length_append. lia.
Qed.

(** More input after a successful lazy match does not move it. *)
Lemma lazyUntil_extend (u v : string) (n : nat) :
  Regex.lazyUntil close u = Some n ->
  Regex.lazyUntil close (u ++ v) = Some n.
Proof.
  revert n. induction u as [|c u IH]; intros n; simpl.
  - destruct (String.prefix close "") eqn:Hp; [|discriminate].
    intros H. rewrite <- H. apply lazyUntil_here.
    exact (prefix_extend _ _ v Hp).
  - destruct (String.prefix close (String c u)) eqn:Hp.
    + intros H.
      change (String c (u ++ v))%string with (String c u ++ v)%string.
      now rewrite (prefix_extend _ _ v Hp).
    + destruct (Regex.lazyUntil close u) as [k|] eqn:Hk; [|discriminate].
      intros H.
      assert (Hp' : String.prefix close (String c (u ++ v)) = false).
      { destruct (String.prefix close (String c (u ++ v))) eqn:E;
          [|reflexivity].
        change (String c (u ++ v))%string with (String c u ++ v)%string in E.
        apply prefix_within in E; [congruence|].
        apply lazyUntil_bounds in Hk. simpl. lia. }
      rewrite Hp', (IH k eq_refl). exact H.
Qed.

End LazyStar.

(** ** The block expression *)

Section BlockSearch.

Local Arguments String.prefix : simpl never.

Lemma substringFrom_append_le (j : nat) (a b : string) :
  j <= String.length a ->
  Js.substringFrom j (a ++ b) = (Js.substringFrom j a ++ b)%string.
Proof.
  revert a. induction j as [|j IH]; intros a Hj; [reflexivity|].
  destruct a as [|c a]; simpl in *; [lia | apply IH; lia].
Qed.

Lemma append_same_length (a b c d : string) :
  (a ++ b = c ++ d)%string -> String.length a = String.length c -> a = c.
Proof.
  revert c. induction a as [|x a IH]; intros [|y c]; simpl;
    intros H Hlen; try discriminate; [reflexivity|].
  injection H as -> H. f_equal. apply IH; [exact H | lia].
Qed.

Lemma delimitedAt_Some (open close s : string) (n : nat) :
  Regex.delimitedAt open close s = Some n ->
  exists body rest,
    s = (open ++ body ++ close ++ rest)%string
    /\ n = String.length open + (String.length body + String.length close)
    /\ forall b1 b2,
         (body ++ close ++ rest = b1 ++ close ++ b2)%string ->
         String.length body <= String.length b1.
Proof.
  unfold Regex.delimitedAt.
  destruct (String.prefix open s) eqn:Hp; [|discriminate].
  apply prefix_iff in Hp. destruct Hp as [r ->].
  rewrite substringFrom_append.
  destruct (Regex.lazyUntil close r) as [k|] eqn:Hk; [|discriminate].
  simpl. intros H. injection H as <-.
  destruct (lazyUntil_Some _ _ Hk) as (body & rest & -> & -> & Hmin).
  exists body, rest. repeat split.
  intros b1 b2 Hb.
  destruct (le_lt_dec (String.length body) (String.length b1)) as [|Hlt];
    [assumption|].
  specialize (Hmin _ Hlt). rewrite Hb, substringFrom_append in Hmin.
  now rewrite prefix_append in Hmin.
Qed.

Lemma delimitedAt_complete (open close mid rest : string) :
  Regex.delimitedAt open close (open ++ mid ++ close ++ rest) <> None.
Proof.
  unfold Regex.delimitedAt.
  rewrite prefix_append, substringFrom_append.
  pose proof (lazyUntil_complete close mid rest) as H.
  destruct (Regex.lazyUntil close _); [discriminate | contradiction].
Qed.

Lemma matchBlockAt_Some (names : list ToolName) (s : string)
    (t : ToolName) (n : nat) :
  matchBlockAt names s = Some (t, n) ->
  Regex.delimitedAt (openTag (tagText t)) (closeTag (tagText t)) s = Some n.
Proof.
  induction names as [|t0 names IH]; simpl; [discriminate|].
  destruct (Regex.delimitedAt (openTag (tagText t0)) _ s) as [k|] eqn:Hk.
  - intros H. injection H as <- <-. exact Hk.
  - exact IH.
Qed.

Lemma matchBlockAt_complete (names : list ToolName) (s : string)
    (t : ToolName) :
  In t names ->
  Regex.delimitedAt (openTag (tagText t)) (closeTag (tagText t)) s <> None ->
  matchBlockAt names s <> None.
Proof.
  induction names as [|t0 names IH]; simpl; [tauto|].
  intros [->|Hin] Hd.
  - destruct (Regex.delimitedAt _ _ s); [discriminate | contradiction].
  - destruct (Regex.delimitedAt (openTag (tagText t0)) _ s);
      [discriminate | now apply IH].
Qed.

Lemma tagNames_all (t : ToolName) : In t tagNames.
Proof. destruct t; simpl; tauto. Qed.

Local Arguments matchBlockAt : simpl never.

Lemma searchBlock_Some (s : string) (i : nat) (t : ToolName) (n : nat) :
  searchBlock s = Some (i, t, n) ->
  matchBlockAt tagNames (Js.substringFrom i s) = Some (t, n)
  /\ i <= String.length s
  /\ forall j, j < i ->
       matchBlockAt tagNames (Js.substringFrom j s) = None.
Proof.
  revert i. induction s as [|c s IH]; intros i.
  - intros H. vm_compute in H. discriminate.
  - simpl. destruct (matchBlockAt tagNames (String c s)) as [[t0 n0]|] eqn:Hm.
    + intros H. injection H as <- <- <-. simpl.
      repeat split; [exact Hm | lia | intros; lia].
    + destruct (searchBlock s) as [[[i0 t0] n0]|]; [|discriminate].
      intros H. injection H as <- <- <-.
      destruct (IH i0 eq_refl) as (Hat & Hle & Hbefore).
      simpl. repeat split; [exact Hat | lia |].
      intros [|j] Hj; simpl; [exact Hm | apply Hbefore; lia].
Qed.

Lemma searchBlock_None (s : string) :
  searchBlock s = None ->
  forall j, matchBlockAt tagNames (Js.substringFrom j s) = None.
Proof.
  induction s as [|c s IH].
  - intros _ [|j]; reflexivity.
  - simpl. destruct (matchBlockAt tagNames (String c s)) as [[t0 n0]|] eqn:Hm;
      [discriminate|].
    destruct (searchBlock s) as [[[i0 t0] n0]|]; [discriminate|].
    intros _ [|j]; simpl; [exact Hm | now apply IH].
Qed.

(** A complete pair at offset [length pre] is seen by the alternation. *)
Lemma matchBlockAt_pair (t : ToolName) (pre mid post : string) :
  matchBlockAt tagNames
    (Js.substringFrom (String.length pre)
       (pre ++ openTag (tagText t) ++ mid ++ closeTag (tagText t) ++ post))
  <> None.
Proof.
  rewrite substringFrom_append.
  apply matchBlockAt_complete with (t := t);
    [apply tagNames_all | apply delimitedAt_complete].
Qed.

End BlockSearch.

(** C8. What [findCompleteBlock] returns for a buffer.  A returned block
    sits in the buffer right before [endIdx]; it opens and closes with the
    tag of one and the same recognized name; its closing tag is the first
    one of that name after the opening tag; and no complete pair starts
    earlier in the buffer.  The answer is none exactly when the buffer
    holds no opening tag of a recognized name followed by the closing tag
    of that name. *)
Theorem findCompleteBlock_shortest_span (buffer : string) :
  match findCompleteBlock buffer with
  | Some info =>
      exists pre body post,
        let open := openTag (tagText (toolName info)) in
        let close := closeTag (tagText (toolName info)) in
        buffer = (pre ++ block info ++ post)%string
        /\ block info = (open ++ body ++ close)%string
        /\ endIdx info = String.length pre + String.length (block info)
        /\ (forall b1 b2,
              (body ++ close ++ post = b1 ++ close ++ b2)%string ->
              String.length body <= String.length b1)
        /\ (forall t pre' mid' post',
              buffer = (pre' ++ openTag (tagText t) ++ mid'
                          ++ closeTag (tagText t) ++ post')%string ->
              String.length pre <= String.length pre')
  | None =>
      forall t pre mid post,
        buffer <> (pre ++ openTag (tagText t) ++ mid
                     ++ closeTag (tagText t) ++ post)%string
  end.
Proof.
  unfold findCompleteBlock.
  destruct (searchBlock buffer) as [[[i t] n]|] eqn:Hs.
  - destruct (searchBlock_Some _ Hs) as (Hat & Hle & Hbefore).
    apply matchBlockAt_Some in Hat.
    destruct (delimitedAt_Some _ _ _ Hat) as (body & rest & Hsplit & -> & Hmin).
    exists (Js.substringTo i buffer), body, rest.
    cbn [block toolName endIdx].
    assert (Hblk : Js.substringTo
                     (String.length (openTag (tagText t))
                      + (String.length body
                         + String.length (closeTag (tagText t))))
                     (Js.substringFrom i buffer)
                   = (openTag (tagText t) ++ body
                        ++ closeTag (tagText t))%string).
    { rewrite Hsplit.
      rewrite <- (append_assoc body), <- (append_assoc (openTag _)).
      rewrite <- !length_append. apply substringTo_append. }
    rewrite Hblk. repeat split.
    + rewrite <- (substring_split i buffer) at 1. f_equal.
      rewrite Hsplit. now rewrite !append_assoc.
    + rewrite substringTo_length by exact Hle.
      rewrite !length_append. reflexivity.
    + exact Hmin.
    + intros t' pre' mid' post' Hbuf.
      rewrite substringTo_length by exact Hle.
      destruct (le_lt_dec i (String.length pre')) as [|Hlt]; [assumption|].
      specialize (Hbefore _ Hlt). rewrite Hbuf in Hbefore.
      now apply matchBlockAt_pair in Hbefore.
  - intros t pre mid post Hbuf.
    pose proof (searchBlock_None _ Hs (String.length pre)) as Hnone.
    rewrite Hbuf in Hnone. now apply matchBlockAt_pair in Hnone.
Qed.

(** ** The dispatch loop *)

Section LoopFacts.

Variables Extra Tool Result World : Type.
Variable tools : ToolName -> option Tool.
Variable callTool : Tool -> Args -> World -> (Result + Thrown) * World.
Variable format : ToolName -> Result -> string + Thrown.

Lemma processChunk_unfold (buffer : string) (chunk : Chunk Extra)
    (w : World) :
  processChunk tools callTool format buffer chunk w
  = match dispatchLoop tools callTool format
            (S (String.length (addToBuffer buffer (chunkContent chunk))))
            chunk (addToBuffer buffer (chunkContent chunk)) w with
    | None => None
    | Some (events, buffer', w') =>
        Some (EvYield chunk :: events, buffer', w')
    end.
Proof. reflexivity. Qed.

Local Abbreviation Chunk := (Chunk Extra).
Local Abbreviation Event := (Event Extra Tool).
Local Abbreviation dispatchBlock :=
  (@dispatch Extra _ _ _ tools callTool format).
Local Abbreviation dispatchLoop :=
  (@dispatchLoop Extra _ _ _ tools callTool format).
Local Abbreviation processChunk :=
  (@processChunk Extra _ _ _ tools callTool format).
Local Abbreviation processStream :=
  (@processStream Extra _ _ _ tools callTool format).

Lemma addToBuffer_append (buffer text : string) :
  addToBuffer buffer text = (buffer ++ text)%string.
Proof.
  unfold addToBuffer. destruct (String.eqb_spec text "") as [->|_];
    [now rewrite append_empty_r | reflexivity].
Qed.

Lemma openTag_length (name : string) : 0 < String.length (openTag name).
Proof. unfold openTag. simpl. lia. Qed.

(** A found block ends inside the buffer, after at least one code unit:
    dropping it shortens the buffer. *)
Lemma findCompleteBlock_endIdx (buffer : string) (info : BlockInfo) :
  findCompleteBlock buffer = Some info ->
  0 < endIdx info <= String.length buffer.
Proof.
  unfold findCompleteBlock.
  destruct (searchBlock buffer) as [[[i t] n]|] eqn:Hs; [|discriminate].
  intros H. injection H as <-. cbn [endIdx].
  destruct (searchBlock_Some _ Hs) as (Hat & Hle & _).
  apply matchBlockAt_Some in Hat.
  destruct (delimitedAt_Some _ _ _ Hat) as (body & rest & Hsplit & -> & _).
  pose proof (openTag_length (tagText t)) as Hopen.
  apply (f_equal String.length) in Hsplit.
  rewrite substringFrom_length, !length_append in Hsplit. lia.
Qed.

Lemma findCompleteBlock_shrinks (buffer : string) (info : BlockInfo) :
  findCompleteBlock buffer = Some info ->
  String.length (Js.substringFrom (endIdx info) buffer)
    < String.length buffer.
Proof.
  intros H. apply findCompleteBlock_endIdx in H.
  rewrite substringFrom_length. lia.
Qed.

Lemma dispatchLoop_total (fuel : nat) (chunk : Chunk) (buffer : string)
    (w : World) :
  String.length buffer < fuel ->
  exists r, dispatchLoop fuel chunk buffer w = Some r.
Proof.
  revert buffer w. induction fuel as [|fuel IH]; intros buffer w Hlen;
    [lia|]. simpl.
  destruct (findCompleteBlock buffer) as [info|] eqn:Hf; [|eauto].
  destruct (dispatchBlock _ _ w) as [[calls text] w1].
  destruct (IH (Js.substringFrom (endIdx info) buffer) w1)
    as [[[events b'] w2] Hr].
  - apply findCompleteBlock_shrinks in Hf. lia.
  - rewrite Hr. eauto.
Qed.

Lemma dispatchLoop_fuel (fuel fuel' : nat) (chunk : Chunk)
    (buffer : string) (w : World) r :
  dispatchLoop fuel chunk buffer w = Some r ->
  fuel <= fuel' ->
  dispatchLoop fuel' chunk buffer w = Some r.
Proof.
  revert fuel' buffer w r.
  induction fuel as [|fuel IH]; intros fuel' buffer w r; simpl;
    [discriminate|].
  intros H Hle. destruct fuel' as [|fuel']; [lia|]. simpl.
  destruct (findCompleteBlock buffer) as [info|]; [|exact H].
  destruct (dispatchBlock _ _ w) as [[calls text] w1].
  destruct (dispatchLoop fuel chunk _ w1) as [[[events b'] w2]|] eqn:Hr;
    [|discriminate].
  rewrite (IH fuel' _ _ _ Hr); [exact H | lia].
Qed.

(** When the loop ends, no complete block is left in the buffer. *)
Lemma dispatchLoop_drained (fuel : nat) (chunk : Chunk) (buffer : string)
    (w : World) events buffer' w' :
  dispatchLoop fuel chunk buffer w = Some (events, buffer', w') ->
  findCompleteBlock buffer' = None.
Proof.
  revert buffer w events.
  induction fuel as [|fuel IH]; intros buffer w events; simpl;
    [discriminate|].
  destruct (findCompleteBlock buffer) as [info|] eqn:Hf.
  - destruct (dispatchBlock _ _ w) as [[calls text] w1].
    destruct (dispatchLoop fuel chunk _ w1) as [[[ev b2] w2]|] eqn:Hr;
      [|discriminate].
    intros H. injection H as _ <- <-. eapply IH. exact Hr.
  - intros H. injection H as _ <- _. exact Hf.
Qed.

Lemma dispatch_calls (t : ToolName) (args : Args) (w : World)
    calls text w' :
  dispatchBlock t args w = (calls, text, w') ->
  calls = []
  \/ exists tool, tools t = Some tool /\ calls = [EvCall t tool args].
Proof.
  unfold dispatch. destruct (tools t) as [tool|].
  - destruct (callTool tool args w) as [[result|err] w1].
    + destruct (format t result); intros H; injection H as <- _ _;
        right; eauto.
    + intros H; injection H as <- _ _; right; eauto.
  - intros H; injection H as <- _ _. now left.
Qed.

Lemma dispatchLoop_shape (fuel : nat) (chunk : Chunk) (buffer : string)
    (w : World) events buffer' w' :
  dispatchLoop fuel chunk buffer w = Some (events, buffer', w') ->
  LoopTrace tools chunk buffer events.
Proof.
  revert buffer w events.
  induction fuel as [|fuel IH]; intros buffer w events; simpl;
    [discriminate|].
  destruct (findCompleteBlock buffer) as [info|] eqn:Hf.
  - destruct (dispatchBlock _ _ w) as [[calls text] w1] eqn:Hd.
    destruct (dispatchLoop fuel chunk _ w1) as [[[ev b2] w2]|] eqn:Hr;
      [|discriminate].
    intros H. injection H as <- <- <-.
    apply LoopBlock; [exact Hf | | eapply IH; exact Hr].
    eapply dispatch_calls. exact Hd.
  - intros H. injection H as <- _ _. now apply LoopDone.
Qed.



Lemma errorText_toolNotAvailable (t : ToolName) :
  errorText (toolNotAvailable t)
    = ("Tool not available for tag: " ++ tagText t)%string.
Proof. reflexivity. Qed.



(** C6. The first event of [processChunk] is the yield of the incoming
    chunk itself; the events after it are the rounds of the loop, in
    each of which the synthesized chunk of a block comes after the scan
    that found the block and before the scan of the next round. *)
Theorem processChunk_emission_order (buffer : string) (chunk : Chunk)
    (w : World) :
  exists events buffer' w',
    processChunk buffer chunk w
      = Some (EvYield chunk :: events, buffer', w')
    /\ LoopTrace tools chunk
         (addToBuffer buffer (chunkContent chunk)) events.
Proof.
  rewrite processChunk_unfold.
  destruct (dispatchLoop_total chunk
              (addToBuffer buffer (chunkContent chunk)) w
              (Nat.lt_succ_diag_r _)) as [[[events b'] w'] Hr].
  rewrite Hr. exists events, b', w'.
  split; [reflexivity|]. eapply dispatchLoop_shape. exact Hr.
Qed.


End LoopFacts.


(** ** One block in a stream, cut into chunks *)

Section Extension.

Local Arguments matchBlockAt : simpl never.

Lemma substringTo_append_le (n : nat) (a b : string) :
  n <= String.length a ->
  Js.substringTo n (a ++ b) = Js.substringTo n a.
Proof.
  revert a. induction n as [|n IH]; intros a Hn.
  - destruct a; destruct b; reflexivity.
  - destruct a as [|c a]; simpl in *; [lia|]. rewrite IH; [reflexivity|lia].
Qed.

Lemma delimitedAt_extend (open close u v : string) (n : nat) :
  Regex.delimitedAt open close u = Some n ->
  Regex.delimitedAt open close (u ++ v) = Some n.
Proof.
  unfold Regex.delimitedAt.
  destruct (String.prefix open u) eqn:Hp; [|discriminate].
  rewrite (prefix_extend _ _ v Hp).
  rewrite substringFrom_append_le by now apply prefix_length.
  destruct (Regex.lazyUntil close _) as [k|] eqn:Hk; [|discriminate].
  now rewrite (lazyUntil_extend _ _ v Hk).
Qed.

Lemma delimitedAt_bounds (open close s : string) (n : nat) :
  Regex.delimitedAt open close s = Some n ->
  String.length open <= n <= String.length s.
Proof.
  intros H.
  destruct (delimitedAt_Some _ _ _ H) as (body & rest & -> & -> & _).
  rewrite !length_append. lia.
Qed.

(** Two opening tags of recognized names that start the same text are
    the same tag. *)
Lemma openTag_unique (a b : ToolName) (s : string) :
  String.prefix (openTag (tagText a)) s = true ->
  String.prefix (openTag (tagText b)) s = true ->
  a = b.
Proof.
  rewrite !prefix_iff. intros [r1 ->] [r2 H].
  destruct a, b; try reflexivity; simpl in H; congruence.
Qed.

Lemma delimitedAt_prefix (open close s : string) (n : nat) :
  Regex.delimitedAt open close s = Some n -> String.prefix open s = true.
Proof.
  unfold Regex.delimitedAt. destruct (String.prefix open s);
    [reflexivity | discriminate].
Qed.

(** The alternation picks the one name whose tags delimit the text. *)
Lemma matchBlockAt_iff (s : string) (t : ToolName) (n : nat) :
  matchBlockAt tagNames s = Some (t, n)
  <-> Regex.delimitedAt (openTag (tagText t)) (closeTag (tagText t)) s
      = Some n.
Proof.
  split; [apply matchBlockAt_Some|].
  intros H.
  destruct (matchBlockAt tagNames s) as [[t' n']|] eqn:Hm.
  - pose proof (matchBlockAt_Some _ _ Hm) as H'.
    assert (t' = t) as ->.
    { eapply openTag_unique; eapply delimitedAt_prefix; eassumption. }
    congruence.
  - exfalso. revert Hm.
    apply matchBlockAt_complete with (t := t);
      [apply tagNames_all | congruence].
Qed.

Lemma matchBlockAt_extend (u v : string) (t : ToolName) (n : nat) :
  matchBlockAt tagNames u = Some (t, n) ->
  matchBlockAt tagNames (u ++ v) = Some (t, n).
Proof.
  rewrite !matchBlockAt_iff. apply delimitedAt_extend.
Qed.

Lemma matchBlockAt_empty : matchBlockAt tagNames "" = None.
Proof. reflexivity. Qed.

Lemma matchBlockAt_inside (j : nat) (s : string) r :
  matchBlockAt tagNames (Js.substringFrom j s) = Some r ->
  j <= String.length s.
Proof.
  intros H. destruct (le_lt_dec j (String.length s)) as [|Hlt];
    [assumption|].
  assert (Js.substringFrom j s = ""%string) as E.
  { pose proof (substringFrom_length j s) as Hl.
    destruct (Js.substringFrom j s); [reflexivity | simpl in Hl; lia]. }
  rewrite E, matchBlockAt_empty in H. discriminate.
Qed.

Lemma pairOffsets_In (s : string) (j : nat) r :
  matchBlockAt tagNames (Js.substringFrom j s) = Some r ->
  In j (pairOffsets s).
Proof.
  revert j. induction s as [|c s IH]; intros j H.
  - destruct j; vm_compute in H; discriminate.
  - destruct j as [|j]; simpl in H.
    + cbn [pairOffsets]. rewrite H. now left.
    + cbn [pairOffsets]. apply in_or_app. right.
      apply in_map. now apply IH.
Qed.

Lemma searchBlock_found (s : string) (j : nat) r :
  matchBlockAt tagNames (Js.substringFrom j s) = Some r ->
  searchBlock s <> None.
Proof.
  intros H Hnone. rewrite (searchBlock_None _ Hnone j) in H. discriminate.
Qed.

(** A match inside a part of the text is a match of the text, at the
    offset of the part plus the offset inside it. *)
Lemma matchBlockAt_in_part (s u v : string) (e i : nat) r :
  Js.substringFrom e s = (u ++ v)%string ->
  matchBlockAt tagNames (Js.substringFrom i u) = Some r ->
  matchBlockAt tagNames (Js.substringFrom (e + i) s) = Some r.
Proof.
  intros Hs Hm. rewrite substringFrom_plus, Hs.
  rewrite substringFrom_append_le by (eapply matchBlockAt_inside; eauto).
  destruct r as [t n]. now apply matchBlockAt_extend.
Qed.

End Extension.

Section SingleBlock.

Variables Extra Tool Result World : Type.
Variable tools : ToolName -> option Tool.
Variable callTool : Tool -> Args -> World -> (Result + Thrown) * World.
Variable format : ToolName -> Result -> string + Thrown.

Lemma processStream_cons (chunk : Chunk Extra) (chunks : list (Chunk Extra))
    (buffer : string) (w : World) :
  processStream tools callTool format (chunk :: chunks) buffer w
  = match processChunk tools callTool format buffer chunk w with
    | None => None
    | Some (events1, buffer1, w1) =>
        match processStream tools callTool format chunks buffer1 w1 with
        | None => None
        | Some (events2, buffer2, w2) =>
            Some (events1 ++ events2, buffer2, w2)
        end
    end.
Proof. reflexivity. Qed.

Lemma dispatchLoop_step (fuel : nat) (chunk : Chunk Extra)
    (buffer : string) (w : World) :
  dispatchLoop tools callTool format (S fuel) chunk buffer w
  = match findCompleteBlock buffer with
    | None => Some ([EvScan buffer None], buffer, w)
    | Some blockInfo =>
        let args := buildArgs (toolName blockInfo) (block blockInfo) in
        let '(calls, text, w1) :=
          dispatch Extra tools callTool format (toolName blockInfo) args w in
        match dispatchLoop tools callTool format fuel chunk
                (Js.substringFrom (endIdx blockInfo) buffer) w1 with
        | None => None
        | Some (events, buffer', w2) =>
            Some (EvScan buffer (Some blockInfo)
                    :: calls ++ EvYield (synthesized chunk text) :: events,
                  buffer', w2)
        end
    end.
Proof. reflexivity. Qed.

Local Abbreviation Chunk := (Chunk Extra).
Local Abbreviation Event := (Event Extra Tool).
Local Abbreviation dispatchBlock :=
  (@dispatch Extra _ _ _ tools callTool format).
Local Abbreviation dispatchLoop :=
  (@dispatchLoop Extra _ _ _ tools callTool format).
Local Abbreviation processChunk :=
  (@processChunk Extra _ _ _ tools callTool format).
Local Abbreviation processStream :=
  (@processStream Extra _ _ _ tools callTool format).

Local Arguments matchBlockAt : simpl never.

(** The stream [s] holds one complete block, which starts at [p]. *)
Variables (s : string) (p : nat).
Hypothesis only_pair : pairOffsets s = [p].

Lemma pair_offset (j : nat) r :
  matchBlockAt tagNames (Js.substringFrom j s) = Some r -> j = p.
Proof.
  intros H. apply pairOffsets_In in H. rewrite only_pair in H.
  destruct H as [H|[]]. now symmetry.
Qed.

(** A block found in the text received so far is the block of the
    stream. *)
Lemma block_in_prefix (b r : string) (info : BlockInfo) :
  s = (b ++ r)%string ->
  findCompleteBlock b = Some info ->
  findCompleteBlock s = Some info.
Proof.
  intros Hs. unfold findCompleteBlock.
  destruct (searchBlock b) as [[[i t] n]|] eqn:Hb; [|discriminate].
  intros H. injection H as <-.
  destruct (searchBlock_Some _ Hb) as (Hat & Hle & _).
  assert (HatS : matchBlockAt tagNames (Js.substringFrom i s) = Some (t, n)).
  { apply (matchBlockAt_in_part s b r 0 i); [now subst s | exact Hat]. }
  pose proof (pair_offset _ HatS) as Hi.
  destruct (searchBlock s) as [[[i' t'] n']|] eqn:HS.
  - destruct (searchBlock_Some _ HS) as (Hat' & _ & _).
    pose proof (pair_offset _ Hat') as Hi'.
    assert (i' = i) as -> by congruence.
    rewrite HatS in Hat'. injection Hat' as <- <-.
    f_equal. f_equal. subst s.
    rewrite substringFrom_append_le by exact Hle.
    apply substringTo_append_le.
    apply matchBlockAt_Some in Hat. apply delimitedAt_bounds in Hat. lia.
  - exfalso. eapply searchBlock_found; eassumption.
Qed.

(** Nothing that follows the block of the stream holds a block. *)
Lemma quiet_after_block (info : BlockInfo) (u v : string) :
  findCompleteBlock s = Some info ->
  Js.substringFrom (endIdx info) s = (u ++ v)%string ->
  findCompleteBlock u = None.
Proof.
  unfold findCompleteBlock.
  destruct (searchBlock s) as [[[i t] n]|] eqn:HS; [|discriminate].
  intros H. injection H as <-. cbn [endIdx]. intros Hrest.
  destruct (searchBlock_Some _ HS) as (Hat & _ & _).
  pose proof (pair_offset _ Hat) as Hi.
  apply matchBlockAt_Some in Hat. apply delimitedAt_bounds in Hat.
  pose proof (openTag_length (tagText t)) as Hopen.
  destruct (searchBlock u) as [[[i' t'] n']|] eqn:Hu; [|reflexivity].
  destruct (searchBlock_Some _ Hu) as (Hat' & _ & _).
  pose proof (matchBlockAt_in_part s u v (i + n) i' Hrest Hat') as Hin.
  apply pair_offset in Hin. lia.
Qed.

Lemma join_cons (x : string) (xs : list string) :
  Js.join (x :: xs) = (x ++ Js.join xs)%string.
Proof.
  unfold Js.join. destruct xs; simpl; [now rewrite append_empty_r|].
  reflexivity.
Qed.

Lemma callsOf_app (e1 e2 : list Event) :
  callsOf (e1 ++ e2) = callsOf e1 ++ callsOf e2.
Proof.
  induction e1 as [|[c|b f|t tool args] e1 IH]; simpl;
    [reflexivity | exact IH | exact IH | now rewrite IH].
Qed.

Lemma dispatchLoop_quiet (fuel : nat) (chunk : Chunk) (buffer : string)
    (w : World) :
  findCompleteBlock buffer = None ->
  dispatchLoop (S fuel) chunk buffer w
    = Some ([EvScan buffer None], buffer, w).
Proof. intros H. simpl. now rewrite H. Qed.

Lemma processChunk_quiet (buffer : string) (chunk : Chunk) (w : World) :
  findCompleteBlock (buffer ++ chunkContent chunk) = None ->
  processChunk buffer chunk w
    = Some ([EvYield chunk;
             EvScan (buffer ++ chunkContent chunk)%string None],
            (buffer ++ chunkContent chunk)%string, w).
Proof.
  intros H. rewrite processChunk_unfold, addToBuffer_append.
  now rewrite dispatchLoop_quiet.
Qed.

(** Chunks whose text, after the buffer, never completes a block pass
    through without a tool call. *)
Lemma processStream_quiet (chunks : list Chunk) (buffer : string)
    (w : World) :
  (forall u v,
      (buffer ++ Js.join (map (@chunkContent Extra) chunks))%string
      = (u ++ v)%string ->
      findCompleteBlock u = None) ->
  exists events buffer',
    processStream chunks buffer w = Some (events, buffer', w)
    /\ callsOf events = [].
Proof.
  revert buffer. induction chunks as [|c chunks IH]; intros buffer Hq.
  - simpl. eauto.
  - cbn [map] in Hq. rewrite join_cons in Hq. rewrite processStream_cons.
    rewrite processChunk_quiet
      by (eapply Hq; symmetry; apply append_assoc).
    destruct (IH (buffer ++ chunkContent c)%string) as (ev & b' & Hr & Hc).
    { intros u v H. apply (Hq u v). now rewrite <- append_assoc. }
    rewrite Hr. eexists _, _. split; [reflexivity|]. exact Hc.
Qed.

Lemma dispatch_registered (t : ToolName) (tool : Tool) (args : Args)
    (w : World) :
  tools t = Some tool ->
  fst (fst (dispatchBlock t args w)) = [EvCall t tool args].
Proof.
  intros H. unfold dispatch. rewrite H.
  destruct (callTool tool args w) as [[result|err] w1];
    [destruct (format t result)|]; reflexivity.
Qed.

(** One round of the loop on a block with a registered tool, after
    which the buffer holds no further block. *)
Lemma dispatchLoop_last_block (fuel : nat) (chunk : Chunk)
    (buffer : string) (w : World) (info : BlockInfo) (tool : Tool) :
  findCompleteBlock buffer = Some info ->
  tools (toolName info) = Some tool ->
  findCompleteBlock (Js.substringFrom (endIdx info) buffer) = None ->
  exists text,
    dispatchLoop (S (S fuel)) chunk buffer w
    = Some ([EvScan buffer (Some info);
             EvCall (toolName info) tool
               (buildArgs (toolName info) (block info));
             EvYield (synthesized chunk text);
             EvScan (Js.substringFrom (endIdx info) buffer) None],
            Js.substringFrom (endIdx info) buffer,
            snd (dispatchBlock (toolName info)
                   (buildArgs (toolName info) (block info)) w)).
Proof.
  intros Hf Htool Hq. rewrite dispatchLoop_step, Hf. cbv zeta.
  pose proof (dispatch_registered (buildArgs (toolName info) (block info))
                w Htool) as Hcalls.
  destruct (dispatchBlock _ _ w) as [[calls text] w1]. simpl in Hcalls.
  subst calls. rewrite dispatchLoop_quiet by exact Hq.
  exists text. reflexivity.
Qed.

(** While the block is not complete in the buffer no tool is called;
    the chunk that completes it triggers the one call; what follows
    triggers none. *)
Lemma processStream_single (info : BlockInfo) (tool : Tool)
    (chunks : list Chunk) (buffer : string) (w : World) :
  findCompleteBlock s = Some info ->
  tools (toolName info) = Some tool ->
  (buffer ++ Js.join (map (@chunkContent Extra) chunks))%string = s ->
  findCompleteBlock buffer = None ->
  exists events buffer',
    processStream chunks buffer w
      = Some (events, buffer',
              snd (dispatchBlock (toolName info)
                     (buildArgs (toolName info) (block info)) w))
    /\ callsOf events
       = [(toolName info, tool, buildArgs (toolName info) (block info))].
Proof.
  intros HS Htool. revert buffer.
  induction chunks as [|c chunks IH]; intros buffer Hs Hnone.
  - simpl in Hs. unfold Js.join in Hs. simpl in Hs.
    rewrite append_empty_r in Hs. congruence.
  - cbn [map] in Hs. rewrite join_cons, <- append_assoc in Hs.
    rewrite processStream_cons.
    destruct (findCompleteBlock (buffer ++ chunkContent c)) as [info'|]
      eqn:Hf.
    + (* this chunk completes the block *)
      pose proof (block_in_prefix _ _ (eq_sym Hs) Hf) as Hf'.
      assert (info' = info) as -> by congruence.
      pose proof (findCompleteBlock_endIdx _ Hf) as He.
      assert (Hrest : Js.substringFrom (endIdx info) s
                      = (Js.substringFrom (endIdx info)
                           (buffer ++ chunkContent c)
                         ++ Js.join (map (@chunkContent Extra) chunks))%string).
      { rewrite <- Hs. apply substringFrom_append_le. lia. }
      rewrite processChunk_unfold, addToBuffer_append.
      destruct (String.length (buffer ++ chunkContent c)) as [|fuel];
        [lia|].
      destruct (@dispatchLoop_last_block fuel c _ w _ _ Hf Htool)
        as [text Hloop].
      { eapply quiet_after_block; [exact HS | exact Hrest]. }
      rewrite Hloop.
      destruct (processStream_quiet chunks
                  (Js.substringFrom (endIdx info) (buffer ++ chunkContent c))
                  (snd (dispatchBlock (toolName info)
                          (buildArgs (toolName info) (block info)) w)))
        as (ev & b' & Hr & Hc).
      { intros u v H. eapply quiet_after_block; [exact HS|].
        rewrite Hrest. exact H. }
      rewrite Hr. eexists _, _. split; [reflexivity|].
      rewrite callsOf_app, Hc. reflexivity.
    + (* the block is still incomplete *)
      rewrite processChunk_quiet by exact Hf.
      destruct (IH _ Hs Hf) as (ev & b' & Hr & Hc).
      rewrite Hr. eexists _, _. split; [reflexivity|].
      rewrite callsOf_app. exact Hc.
Qed.

End SingleBlock.

Section Chunking.

Variables Extra Tool Result World : Type.
Variable tools : ToolName -> option Tool.
Variable callTool : Tool -> Args -> World -> (Result + Thrown) * World.
Variable format : ToolName -> Result -> string + Thrown.

(** C1, amended. A stream in which a well-formed block is the only
    complete recognized pair, of a tag with a registered tool, is
    delivered to a fresh streamer once cut into chunks in any way and
    once as a single chunk.  Both runs call the tool exactly once, with
    the arguments extracted from the block that [findCompleteBlock]
    finds in the whole stream, and end in the same world. *)
Theorem dispatch_independent_of_chunking
    (stream pre body post : string) (t : ToolName) (tool : Tool)
    (chunks : list (Chunk Extra)) (whole : Chunk Extra) (w : World) :
  stream = (pre ++ openTag (tagText t) ++ body
              ++ closeTag (tagText t) ++ post)%string ->
  pairOffsets stream = [String.length pre] ->
  tools t = Some tool ->
  Js.join (map (@chunkContent Extra) chunks) = stream ->
  chunkContent whole = stream ->
  exists info events buffer' events1 buffer1 w',
    findCompleteBlock stream = Some info
    /\ toolName info = t
    /\ processStream tools callTool format chunks "" w
       = Some (events, buffer', w')
    /\ processStream tools callTool format [whole] "" w
       = Some (events1, buffer1, w')
    /\ callsOf events = [(t, tool, buildArgs t (block info))]
    /\ callsOf events1 = [(t, tool, buildArgs t (block info))].
Proof.
  intros Hstream Hpair Htool Hchunks Hwhole.
  assert (Hfound : exists info,
             findCompleteBlock stream = Some info /\ toolName info = t).
  { unfold findCompleteBlock.
    destruct (searchBlock stream) as [[[i t'] n]|] eqn:HS.
    - eexists. split; [reflexivity|]. cbn [toolName].
      destruct (searchBlock_Some _ HS) as (Hat & _ & _).
      assert (i = String.length pre) as ->
        by (eapply pair_offset; eassumption).
      rewrite Hstream, substringFrom_append in Hat.
      apply matchBlockAt_Some, delimitedAt_prefix in Hat.
      eapply openTag_unique; [exact Hat | apply prefix_append].
    - exfalso.
      pose proof (searchBlock_None _ HS (String.length pre)) as Hnone.
      rewrite Hstream in Hnone. now apply matchBlockAt_pair in Hnone. }
  destruct Hfound as (info & Hinfo & <-).
  destruct (@processStream_single _ _ _ _ tools callTool format _ _ Hpair
              info tool chunks "" w Hinfo Htool Hchunks eq_refl)
    as (events & buffer' & Hrun & Hcalls).
  destruct (@processStream_single _ _ _ _ tools callTool format _ _ Hpair
              info tool [whole] "" w Hinfo Htool)
    as (events1 & buffer1 & Hrun1 & Hcalls1);
    [ simpl; unfold Js.join; simpl; exact Hwhole | reflexivity | ].
  eexists info, events, buffer', events1, buffer1, _.
  repeat split; eassumption.
Qed.

End Chunking.

Lemma dispatch_independent_of_chunking_witness :
  pairOffsets demoStream = [2]
  /\ exists info events buffer' events1 buffer1 w',
       findCompleteBlock demoStream = Some info
       /\ toolName info = writeToFile
       /\ processStream demoTools demoCall demoFormat demoChunks "" []
          = Some (events, buffer', w')
       /\ processStream demoTools demoCall demoFormat
            [mkChunk (ContentString demoStream) tt] "" []
          = Some (events1, buffer1, w')
       /\ callsOf events = [(writeToFile, 7, buildArgs writeToFile (block info))]
       /\ callsOf events1
          = [(writeToFile, 7, buildArgs writeToFile (block info))].
Proof.
  split; [reflexivity|].
  apply (@dispatch_independent_of_chunking unit nat string (list Args)
           demoTools demoCall demoFormat demoStream
           "he" "<path>a.md</path><content>hi</content>" "llo"
           writeToFile 7 demoChunks
           (mkChunk (ContentString demoStream) tt) []);
    reflexivity.
Defined.

(** C1, as the specification states it, fails when the text around the
    block holds a recognized pair of its own.  Here a well-formed
    [writeToFile] block stands in prose that mentions [<moveFile>] before
    it and [</moveFile>] after it: cut right after the block the streamer
    calls [writeToFile], but delivered as one chunk it calls [moveFile]
    and never [writeToFile]. *)
Lemma chunking_changes_dispatch :
  ~ (forall (stream pre body post : string) (t : ToolName) (tool : nat)
            (chunks : list (Chunk unit)) (whole : Chunk unit)
            (w : list Args),
        stream = (pre ++ openTag (tagText t) ++ body
                    ++ closeTag (tagText t) ++ post)%string ->
        demoTools t = Some tool ->
        Js.join (map (@chunkContent unit) chunks) = stream ->
        chunkContent whole = stream ->
        exists args events buffer' w' events1 buffer1 w1,
          processStream demoTools demoCall demoFormat chunks "" w
          = Some (events, buffer', w')
          /\ processStream demoTools demoCall demoFormat [whole] "" w
             = Some (events1, buffer1, w1)
          /\ callsOf events = [(t, tool, args)]
          /\ callsOf events1 = [(t, tool, args)]).
Proof.
  intros H.
  specialize (H strayStream "use <moveFile> or "%string
                "<path>a.md</path><content>hi</content>"%string
                ", not </moveFile>"%string
                writeToFile 7 strayChunks
                (mkChunk (ContentString strayStream) tt) []
                eq_refl eq_refl eq_refl eq_refl).
  destruct H as (args & events & b & w' & events1 & b1 & w1
                 & Hrun & Hrun1 & Hcalls & Hcalls1).
  vm_compute in Hrun1. injection Hrun1 as <- _ _.
  vm_compute in Hcalls1. discriminate Hcalls1.
Qed.

(** When a complete block lies inside another recognized pair the cut
    decides which of them is dispatched: the premise of one pair per
    stream is needed. *)
Example nested_pair_depends_on_cut :
  option_map (fun r => map (fun c => fst (fst c)) (callsOf (fst (fst r))))
    (processStream demoTools demoCall demoFormat nestedChunks "" [])
    = Some [writeToFile]
  /\ option_map (fun r => map (fun c => fst (fst c)) (callsOf (fst (fst r))))
       (processStream demoTools demoCall demoFormat [nestedWhole] "" [])
     = Some [moveFile].
Proof. split; reflexivity. Qed.

(** * Further properties of the review pane *)

Section BottomBar.

Lemma mapDecide_content (keep : ExtendedChange -> bool)
    (rule : ExtendedChange -> option (option bool)) :
  (forall fresh change decision,
      keep (withAccepted fresh change decision)
      = keep (withAccepted (oid change) change decision)) ->
  forall (changes : list ExtendedChange) (fresh : nat),
    map value (filter keep (snd (mapDecide rule fresh changes)))
    = map value (filter (fun change => keep (afterRule rule change)) changes).
Proof.
  intros Hkeep. induction changes as [|c changes IH]; intros fresh;
    [reflexivity|].
  cbn [mapDecide]. unfold afterRule at 1. cbn [filter].
  destruct (rule c) as [decision|].
  - specialize (IH (S fresh)).
    destruct (mapDecide rule (S fresh) changes) as [next rest].
    cbn [snd filter] in *. rewrite Hkeep.
    destruct (keep _); cbn [map]; now rewrite IH.
  - specialize (IH fresh).
    destruct (mapDecide rule fresh changes) as [next rest].
    cbn [snd filter] in *.
    destruct (keep c); cbn [map]; now rewrite IH.
Qed.

Lemma updatedDiff_content (rule : ExtendedChange -> option (option bool))
    (st : ReviewState) :
  buildContentFromDiff (updatedDiff rule st)
  = Js.join (map value
               (filter (fun change => keptInContent (afterRule rule change))
                  (diff st))).
Proof.
  unfold buildContentFromDiff, updatedDiff. f_equal.
  now apply mapDecide_content.
Qed.

Lemma filter_on_members (A : Type) (p q : A -> bool) (l : list A)
    (P : A -> Prop) :
  Forall P l -> (forall x, P x -> p x = q x) -> filter p l = filter q l.
Proof.
  intros HP Hpq. apply filter_pointwise.
  eapply Forall_impl; [|exact HP]. exact Hpq.
Qed.

Lemma Forall_trivial (A : Type) (l : list A) : Forall (fun _ => True) l.
Proof. induction l; constructor; auto. Qed.

End BottomBar.

(** X1. [handleAccept] writes what the result pane previews: the content
    it commits is [buildPreviewResultFromDiff] of the current diff,
    whatever was decided so far. *)
Theorem handleAccept_commits_preview (st : ReviewState) :
  handleAcceptContent st = buildPreviewResultFromDiff (diff st).
Proof.
  unfold handleAcceptContent. rewrite updatedDiff_content.
  unfold buildPreviewResultFromDiff. do 2 f_equal.
  apply filter_on_members with (P := fun _ => True);
    [apply Forall_trivial|].
  intros c _. unfold afterRule, acceptRule, keptInContent, keptInPreview.
  destruct (accepted c) as [[|]|] eqn:E; simpl; rewrite ?E;
    destruct (added c), (removed c); reflexivity.
Qed.

(** X2. On a review in which nothing was decided, [handleReject] commits
    the original content and [handleAccept] the proposed content. *)
Theorem bottom_bar_on_undecided_review (st : ReviewState) :
  Forall (fun change => accepted change = None) (diff st) ->
  Forall wellFormedChange (diff st) ->
  handleRejectContent st = originalContent (diff st)
  /\ handleAcceptContent st = proposedContent (diff st).
Proof.
  intros Hun Hwf.
  assert (Hboth : Forall (fun c => accepted c = None /\ wellFormedChange c)
                    (diff st)).
  { rewrite Forall_forall in *. auto. }
  unfold handleRejectContent, handleAcceptContent.
  rewrite !updatedDiff_content. unfold originalContent, proposedContent.
  split; do 2 f_equal;
    (eapply filter_on_members; [exact Hboth|]);
    intros c [E Hc]; unfold wellFormedChange in Hc;
    unfold afterRule, rejectRule, acceptRule, keptInContent;
    rewrite E; simpl;
    destruct (added c), (removed c); simpl in *; congruence.
Qed.

Lemma bottom_bar_on_undecided_review_witness :
  Forall (fun change => accepted change = None) (diff demoUndecided)
  /\ Forall wellFormedChange (diff demoUndecided)
  /\ handleRejectContent demoUndecided = "AB"
  /\ handleAcceptContent demoUndecided = "AC".
Proof.
  assert (Hun : Forall (fun change => accepted change = None)
                  (diff demoUndecided)) by (repeat constructor).
  assert (Hwf : Forall wellFormedChange (diff demoUndecided))
    by (repeat constructor).
  split; [exact Hun|]. split; [exact Hwf|].
  exact (bottom_bar_on_undecided_review demoUndecided Hun Hwf).
Defined.

(** X3. [handleAcceptAll] stores [true] on added and [false] on removed
    entries, and [buildContentFromDiff] keeps a removed entry whose
    decision is [false]: the content it commits is the text of every
    entry of the diff, removed ones included. *)
Theorem handleAcceptAll_commits_every_entry (st : ReviewState) :
  Forall wellFormedChange (diff st) ->
  handleAcceptAllContent st = Js.join (map value (diff st)).
Proof.
  intros Hwf. unfold handleAcceptAllContent. rewrite updatedDiff_content.
  do 2 f_equal.
  rewrite (filter_on_members _ (fun _ => true) Hwf).
  - clear Hwf. generalize (diff st) as l.
    induction l as [|c l IH]; simpl; [reflexivity | now rewrite IH].
  - intros c Hc. unfold wellFormedChange in Hc.
    unfold afterRule, acceptAllRule, keptInContent.
    destruct (added c) eqn:Ea, (removed c) eqn:Er; simpl;
      rewrite ?Ea, ?Er; simpl in *; congruence.
Qed.

Lemma handleAcceptAll_commits_every_entry_witness :
  Forall wellFormedChange (diff demoPartly)
  /\ handleAcceptAllContent demoPartly = "ABCDE".
Proof.
  assert (Hwf : Forall wellFormedChange (diff demoPartly))
    by (repeat constructor).
  split; [exact Hwf|].
  exact (handleAcceptAll_commits_every_entry demoPartly Hwf).
Defined.

(** X4. [handleRejectAll] commits the original content, whatever was
    decided before. *)
Theorem handleRejectAll_commits_original (st : ReviewState) :
  handleRejectAllContent st = originalContent (diff st).
Proof.
  unfold handleRejectAllContent. rewrite updatedDiff_content.
  unfold originalContent. do 2 f_equal.
  apply filter_on_members with (P := fun _ => True);
    [apply Forall_trivial|].
  intros c _. unfold afterRule, rejectAllRule, keptInContent.
  destruct (added c) eqn:Ea, (removed c) eqn:Er; simpl;
    rewrite ?Ea, ?Er; reflexivity.
Qed.

(** X5. Once every added entry carries a decision, the preview and the
    committed content are the same text; in particular when the whole diff
    is decided. *)
Theorem preview_is_content_when_decided (changes : list ExtendedChange) :
  Forall (fun change => added change = true -> accepted change <> None)
    changes ->
  buildPreviewResultFromDiff changes = buildContentFromDiff changes.
Proof.
  intros H. unfold buildPreviewResultFromDiff, buildContentFromDiff.
  do 2 f_equal. eapply filter_on_members; [exact H|].
  intros c Hc. simpl in Hc. unfold keptInPreview, keptInContent.
  destruct (added c); [|reflexivity].
  destruct (accepted c) as [[|]|]; try reflexivity.
  now elim (Hc eq_refl).
Qed.

Lemma preview_is_content_when_decided_witness :
  buildPreviewResultFromDiff (diff (rejectBlock [diff demoUndecided] 0 demoUndecided))
  = buildContentFromDiff (diff (rejectBlock [diff demoUndecided] 0 demoUndecided)).
Proof.
  apply preview_is_content_when_decided.
  repeat constructor; simpl; discriminate.
Defined.

Section InitialReview.

Lemma extendFrom_filter (keep : ExtendedChange -> bool)
    (keep' : Change -> bool) :
  (forall fresh c,
      keep {| oid := fresh; value := changeValue c;
              added := changeAdded c; removed := changeRemoved c;
              accepted := None |} = keep' c) ->
  forall (changes : list Change) (fresh : nat),
    map value (filter keep (extendFrom fresh changes))
    = map changeValue (filter keep' changes).
Proof.
  intros Hk. induction changes as [|c changes IH]; intros fresh;
    [reflexivity|].
  cbn [extendFrom filter]. rewrite Hk.
  destruct (keep' c); cbn [map]; now rewrite IH.
Qed.

End InitialReview.

(** X6. A freshly opened review: the original view is the text of the
    changes that are not added; the preview is the proposed content, the
    text of the changes that are not removed; and the content that would
    be committed without any decision is the text of the neutral changes
    alone. *)
Theorem initial_review_views (changes : list Change) :
  Forall wellFormedSource changes ->
  let st := initialReview changes in
  originalContent (diff st)
    = Js.join (map changeValue
                 (filter (fun c => negb (changeAdded c)) changes))
  /\ previewContent (diff st) = proposedContent (diff st)
  /\ proposedContent (diff st)
     = Js.join (map changeValue
                  (filter (fun c => negb (changeRemoved c)) changes))
  /\ buildContentFromDiff (diff st)
     = Js.join (map changeValue
                  (filter (fun c => negb (changeAdded c)
                                    && negb (changeRemoved c)) changes)).
Proof.
  intros Hwf st. subst st. unfold initialReview. cbn [diff].
  assert (Hprop : proposedContent (extendFrom 0 changes)
                  = Js.join (map changeValue
                               (filter (fun c => negb (changeRemoved c))
                                  changes))).
  { unfold proposedContent. f_equal. now apply extendFrom_filter. }
  repeat split.
  - unfold originalContent. f_equal. now apply extendFrom_filter.
  - rewrite Hprop. unfold previewContent, buildPreviewResultFromDiff.
    f_equal.
    rewrite (extendFrom_filter keptInPreview
               (fun c => changeAdded c || negb (changeRemoved c)))
      by (intros fresh c; unfold keptInPreview; simpl;
          destruct (changeAdded c), (changeRemoved c); reflexivity).
    f_equal. eapply filter_on_members; [exact Hwf|].
    intros c Hc. unfold wellFormedSource in Hc.
    destruct (changeAdded c), (changeRemoved c); simpl in *; congruence.
  - exact Hprop.
  - unfold buildContentFromDiff. f_equal. apply extendFrom_filter.
    intros fresh c. unfold keptInContent. simpl.
    destruct (changeAdded c), (changeRemoved c); reflexivity.
Qed.

Lemma initial_review_views_witness :
  Forall wellFormedSource demoChanges
  /\ originalContent (diff (initialReview demoChanges)) = "AB"
  /\ previewContent (diff (initialReview demoChanges)) = "AC"
  /\ buildContentFromDiff (diff (initialReview demoChanges)) = "A".
Proof.
  assert (Hwf : Forall wellFormedSource demoChanges) by (repeat constructor).
  split; [exact Hwf|].
  destruct (initial_review_views Hwf) as (Ho & Hp & Hq & Hc).
  rewrite Ho, Hp, Hq, Hc. repeat split.
Defined.

Section BlockDecisionViews.

Variable decision : option bool.

Lemma replaceFirst_flags (p : ExtendedChange -> bool) (fresh : nat)
    (l : list ExtendedChange) :
  map (fun c => (value c, added c, removed c))
    (replaceFirst p (fun old => withAccepted fresh old decision) l)
  = map (fun c => (value c, added c, removed c)) l.
Proof.
  induction l as [|c l IH]; simpl; [reflexivity|].
  destruct (p c); simpl; [reflexivity | now rewrite IH].
Qed.

Lemma decideBlock_flags (changeBlocks : list (list ExtendedChange))
    (blockIndex : nat) (st : ReviewState) :
  map (fun c => (value c, added c, removed c))
    (diff (decideBlock decision changeBlocks blockIndex st))
  = map (fun c => (value c, added c, removed c)) (diff st).
Proof.
  unfold decideBlock.
  destruct (nth_error changeBlocks blockIndex) as [blk|]; [|reflexivity].
  revert st. induction blk as [|x blk IH]; intros st; simpl;
    [reflexivity|].
  rewrite IH, decideEntry_replaceFirst. apply replaceFirst_flags.
Qed.

Lemma flags_filter (keep : string * bool * bool -> bool)
    (l1 l2 : list ExtendedChange) :
  map (fun c => (value c, added c, removed c)) l1
  = map (fun c => (value c, added c, removed c)) l2 ->
  map value (filter (fun c => keep (value c, added c, removed c)) l1)
  = map value (filter (fun c => keep (value c, added c, removed c)) l2).
Proof.
  revert l2. induction l1 as [|a l1 IH]; intros [|b l2] H;
    try discriminate; [reflexivity|].
  simpl in H. injection H as Hv Ha Hr H.
  simpl. rewrite Hv, Ha, Hr.
  destruct (keep _); simpl; [rewrite Hv|]; now rewrite (IH _ H).
Qed.

End BlockDecisionViews.

(** X7. No block-level decision (accept, reject or revert, on any block
    list and index) changes the number of entries, their text or their
    flags: the original and the proposed view stay what they were. *)
Theorem decideBlock_keeps_views (decision : option bool)
    (changeBlocks : list (list ExtendedChange)) (blockIndex : nat)
    (st : ReviewState) :
  let st' := decideBlock decision changeBlocks blockIndex st in
  List.length (diff st') = List.length (diff st)
  /\ map value (diff st') = map value (diff st)
  /\ map added (diff st') = map added (diff st)
  /\ map removed (diff st') = map removed (diff st)
  /\ originalContent (diff st') = originalContent (diff st)
  /\ proposedContent (diff st') = proposedContent (diff st).
Proof.
  intros st'. subst st'.
  pose proof (decideBlock_flags decision changeBlocks blockIndex st) as H.
  repeat split.
  - apply (f_equal (@List.length _)) in H. now rewrite !length_map in H.
  - apply (f_equal (map (fun t => fst (fst t)))) in H.
    now rewrite !map_map in H.
  - apply (f_equal (map (fun t => snd (fst t)))) in H.
    now rewrite !map_map in H.
  - apply (f_equal (map (fun t => snd t))) in H.
    now rewrite !map_map in H.
  - unfold originalContent. f_equal.
    exact (flags_filter (fun t => negb (snd (fst t))) _ _ H).
  - unfold proposedContent. f_equal.
    exact (flags_filter (fun t => negb (snd t)) _ _ H).
Qed.

Section StaleBlocks.

Lemma findIndex_none (A : Type) (p : A -> bool) (l : list A) :
  Forall (fun x => p x = false) l -> findIndex p l = None.
Proof.
  induction 1 as [|x l Hx _ IH]; simpl; [reflexivity|].
  now rewrite Hx, IH.
Qed.

Lemma decideEntry_absent (decision : option bool) (st : ReviewState)
    (x : ExtendedChange) :
  Forall (fun change => sameObject change x = false) (diff st) ->
  decideEntry decision st x = st.
Proof.
  intros H. unfold decideEntry. now rewrite findIndex_none.
Qed.

Lemma decideEntries_absent (decision : option bool)
    (blk : list ExtendedChange) (st : ReviewState) :
  Forall (fun x => Forall (fun change => sameObject change x = false)
                     (diff st)) blk ->
  fold_left (decideEntry decision) blk st = st.
Proof.
  induction 1 as [|x blk Hx _ IH]; simpl; [reflexivity|].
  now rewrite decideEntry_absent.
Qed.

(** After a block was decided none of its objects is an entry of the
    diff any more. *)
Lemma entryAfter_gone (base : nat) (decision : option bool)
    (blk orig cur : list ExtendedChange) (x : ExtendedChange) :
  In x blk -> oid x < base ->
  Forall2 (entryAfter base decision blk) orig cur ->
  Forall (fun change => sameObject change x = false) cur.
Proof.
  intros Hin Hx H.
  induction H as [|a b orig cur Hab _ IH]; constructor; [|exact IH].
  destruct Hab as (_ & _ & _ & Hd). unfold sameObject.
  destruct (inBlock blk a) eqn:Hblk.
  - apply Nat.eqb_neq. lia.
  - subst b. unfold inBlock in Hblk.
    destruct (Nat.eqb (oid a) (oid x)) eqn:E; [|reflexivity].
    assert (existsb (sameObject a) blk = true)
      by (apply existsb_exists; exists x; split; assumption).
    congruence.
Qed.

End StaleBlocks.

(** X8. A block list is good for one decision per block: the entries a
    decision touches become new objects, so a second decision through the
    same (stale) block list finds none of them and changes nothing. *)
Theorem stale_block_decision_is_noop (first second : option bool)
    (changeBlocks : list (list ExtendedChange)) (blockIndex : nat)
    (st : ReviewState) :
  wellFormedReview st ->
  (forall blk, nth_error changeBlocks blockIndex = Some blk ->
               Forall (fun change => oid change < nextOid st) blk) ->
  decideBlock second changeBlocks blockIndex
    (decideBlock first changeBlocks blockIndex st)
  = decideBlock first changeBlocks blockIndex st.
Proof.
  intros Hwf Hblk.
  destruct (nth_error changeBlocks blockIndex) as [blk|] eqn:Hnth.
  - specialize (Hblk blk eq_refl).
    destruct (decideBlock_entries first changeBlocks blockIndex Hwf Hnth Hblk)
      as [_ Hall].
    unfold decideBlock at 1. rewrite Hnth.
    apply decideEntries_absent.
    rewrite Forall_forall. intros x Hin.
    eapply entryAfter_gone; [exact Hin | | exact Hall].
    rewrite Forall_forall in Hblk. now apply Hblk.
  - unfold decideBlock. now rewrite Hnth.
Qed.

Lemma stale_block_decision_is_noop_witness :
  rejectBlock [diff demoUndecided] 0
    (acceptBlock [diff demoUndecided] 0 demoUndecided)
  = acceptBlock [diff demoUndecided] 0 demoUndecided.
Proof.
  apply stale_block_decision_is_noop.
  - split; simpl; repeat constructor; simpl; intuition; try discriminate.
  - intros blk H. injection H as <-. repeat constructor.
Defined.

Section BlockContent.

Lemma entries_filter (keep' keep : ExtendedChange -> bool)
    (R : ExtendedChange -> ExtendedChange -> Prop)
    (orig cur : list ExtendedChange) :
  (forall a b, R a b -> value b = value a /\ keep b = keep' a) ->
  Forall2 R orig cur ->
  map value (filter keep cur) = map value (filter keep' orig).
Proof.
  intros HR H. induction H as [|a b orig cur Hab _ IH]; [reflexivity|].
  destruct (HR a b Hab) as [Hv Hk]. simpl. rewrite Hk.
  destruct (keep' a); simpl; [rewrite Hv|]; now rewrite IH.
Qed.

Lemma Forall2_with_left (A B : Type) (R : A -> B -> Prop) (P : A -> Prop)
    (l1 : list A) (l2 : list B) :
  Forall P l1 -> Forall2 R l1 l2 ->
  Forall2 (fun a b => P a /\ R a b) l1 l2.
Proof.
  intros HP H. induction H as [|a b l1 l2 Hab _ IH]; constructor;
    inversion HP; subst; auto.
Qed.

End BlockContent.

(** X9. What a block-level decision commits.  After [acceptBlock] the
    committed content takes the proposed side of the block (every entry of
    the block but the removed ones); after [rejectBlock] it takes the
    original side (every entry but the added ones); entries outside the
    block count as before. *)
Theorem block_decision_content (st : ReviewState)
    (changeBlocks : list (list ExtendedChange)) (blockIndex : nat)
    (blk : list ExtendedChange) :
  wellFormedReview st ->
  nth_error changeBlocks blockIndex = Some blk ->
  Forall (fun change => oid change < nextOid st) blk ->
  Forall wellFormedChange (diff st) ->
  buildContentFromDiff (diff (acceptBlock changeBlocks blockIndex st))
    = Js.join (map value
                 (filter (fun c => if inBlock blk c then negb (removed c)
                                   else keptInContent c) (diff st)))
  /\ buildContentFromDiff (diff (rejectBlock changeBlocks blockIndex st))
     = Js.join (map value
                  (filter (fun c => if inBlock blk c then negb (added c)
                                    else keptInContent c) (diff st))).
Proof.
  intros Hwf Hnth Hblk Hch.
  split; unfold buildContentFromDiff; f_equal.
  - destruct (decideBlock_entries (Some true) changeBlocks blockIndex
                Hwf Hnth Hblk) as [_ Hall].
    apply (Forall2_with_left Hch) in Hall.
    eapply entries_filter; [|exact Hall].
    intros a b (Ha & Hv & Had & Hr & Hd). split; [exact Hv|].
    unfold wellFormedChange in Ha. unfold keptInContent.
    destruct (inBlock blk a); [|now subst b].
    destruct Hd as [Hd _]. rewrite Had, Hr, Hd.
    destruct (added a), (removed a); simpl in *; congruence.
  - destruct (decideBlock_entries (Some false) changeBlocks blockIndex
                Hwf Hnth Hblk) as [_ Hall].
    eapply entries_filter; [|exact Hall].
    intros a b (Hv & Had & Hr & Hd). split; [exact Hv|].
    unfold keptInContent.
    destruct (inBlock blk a); [|now subst b].
    destruct Hd as [Hd _]. rewrite Had, Hr, Hd.
    destruct (added a), (removed a); reflexivity.
Qed.

Lemma block_decision_content_witness :
  buildContentFromDiff
    (diff (acceptBlock [demoBlock] 0 demoUndecided)) = "AC"
  /\ buildContentFromDiff
       (diff (rejectBlock [demoBlock] 0 demoUndecided)) = "AB".
Proof.
  assert (Hwf : wellFormedReview demoUndecided).
  { split; simpl; repeat constructor; simpl; intuition; try discriminate. }
  assert (Hblk : Forall (fun change => oid change < nextOid demoUndecided)
                   demoBlock) by (repeat constructor).
  assert (Hch : Forall wellFormedChange (diff demoUndecided))
    by (repeat constructor).
  destruct (@block_decision_content demoUndecided [demoBlock] 0 demoBlock
              Hwf eq_refl Hblk Hch) as [Ha Hr].
  rewrite Ha, Hr. split; reflexivity.
Defined.

(** X10. [rejectBlock] stores [false] and the Revert button stores [null]
    on every entry of the block, whatever its role; text and flags are
    kept and entries outside the block stay the objects they were. *)
Theorem reject_and_revert_every_entry (st : ReviewState)
    (changeBlocks : list (list ExtendedChange)) (blockIndex : nat)
    (blk : list ExtendedChange) :
  wellFormedReview st ->
  nth_error changeBlocks blockIndex = Some blk ->
  Forall (fun change => oid change < nextOid st) blk ->
  Forall2
    (fun before after =>
       value after = value before
       /\ added after = added before
       /\ removed after = removed before
       /\ (if inBlock blk before
           then accepted after = Some false
           else after = before))
    (diff st) (diff (rejectBlock changeBlocks blockIndex st))
  /\ Forall2
       (fun before after =>
          value after = value before
          /\ added after = added before
          /\ removed after = removed before
          /\ (if inBlock blk before
              then accepted after = None
              else after = before))
       (diff st) (diff (revertBlock changeBlocks blockIndex st)).
Proof.
  intros Hwf Hnth Hblk.
  split.
  - destruct (decideBlock_entries (Some false) changeBlocks blockIndex
                Hwf Hnth Hblk) as [_ Hall].
    eapply Forall2_impl; [|exact Hall].
    unfold entryAfter. intros a b (Hv & Ha & Hr & Hd).
    repeat split; try assumption.
    destruct (inBlock blk a); [apply Hd | exact Hd].
  - destruct (decideBlock_entries None changeBlocks blockIndex
                Hwf Hnth Hblk) as [_ Hall].
    eapply Forall2_impl; [|exact Hall].
    unfold entryAfter. intros a b (Hv & Ha & Hr & Hd).
    repeat split; try assumption.
    destruct (inBlock blk a); [apply Hd | exact Hd].
Qed.

Lemma reject_and_revert_every_entry_witness :
  wellFormedReview demoUndecided
  /\ Forall (fun change => oid change < nextOid demoUndecided) demoBlock
  /\ Forall2
       (fun before after =>
          value after = value before
          /\ added after = added before
          /\ removed after = removed before
          /\ (if inBlock demoBlock before
              then accepted after = Some false
              else after = before))
       (diff demoUndecided) (diff (rejectBlock [demoBlock] 0 demoUndecided)).
Proof.
  assert (Hwf : wellFormedReview demoUndecided).
  { split; simpl; repeat constructor; simpl; intuition; try discriminate. }
  assert (Hblk : Forall (fun change => oid change < nextOid demoUndecided)
                   demoBlock) by (repeat constructor).
  split; [exact Hwf|]. split; [exact Hblk|].
  exact (proj1 (@reject_and_revert_every_entry demoUndecided [demoBlock] 0
                  demoBlock Hwf eq_refl Hblk)).
Defined.

Section BlockStatus.

Lemma existsb_false (A : Type) (p : A -> bool) (l : list A) :
  existsb p l = false -> Forall (fun x => p x = false) l.
Proof.
  induction l as [|x l IH]; simpl; intros H; constructor;
    apply orb_false_iff in H; [apply H | apply IH, H].
Qed.

Lemma acceptedIs_true (b : bool) (change : ExtendedChange) :
  acceptedIs b change = true -> accepted change = Some b.
Proof.
  unfold acceptedIs. destruct (accepted change) as [b'|]; [|discriminate].
  intros H. apply eqb_prop in H. now subst.
Qed.

(** Every entry of a block shown with the status of [b], or as
    unchanged, is neutral or carries the decision [b]. *)
Lemma blockStatus_entries (b : bool) (blk : list ExtendedChange) :
  blockStatus blk = (if b then StatusAccepted else StatusRejected)
  \/ blockStatus blk = StatusUnchanged ->
  Forall (fun change => isNeutral change = true
                        \/ accepted change = Some b) blk.
Proof.
  unfold blockStatus.
  destruct (existsb _ blk) eqn:He.
  - destruct (forallb _ blk) eqn:F1.
    + intros H. destruct b; [|destruct H as [H|H]; discriminate H].
      rewrite forallb_forall in F1. rewrite Forall_forall.
      intros c Hc. specialize (F1 c Hc).
      apply orb_true_iff in F1. destruct F1 as [F1|F1];
        [now left | right; now apply acceptedIs_true].
    + destruct (forallb (fun change => _ || acceptedIs false change) blk)
      eqn:F2.
      * intros H. destruct b; [destruct H as [H|H]; discriminate H|].
        rewrite forallb_forall in F2. rewrite Forall_forall.
        intros c Hc. specialize (F2 c Hc).
        apply orb_true_iff in F2. destruct F2 as [F2|F2];
          [now left | right; now apply acceptedIs_true].
      * intros H. destruct b; destruct H as [H|H]; discriminate H.
  - intros _. apply existsb_false in He.
    eapply Forall_impl; [|exact He].
    intros c Hc. left. unfold isNeutral.
    apply orb_false_iff in Hc. destruct Hc as [-> ->]. reflexivity.
Qed.

End BlockStatus.

(** X11. The status line of the blocks tells what a commit would write:
    when a partition of the diff into blocks shows every block as accepted
    or unchanged, the committed content is the proposed content; when it
    shows every block as rejected or unchanged, it is the original
    content. *)
Theorem statuses_decide_content (blocks : list (list ExtendedChange))
    (changes : list ExtendedChange) :
  concat blocks = changes ->
  Forall wellFormedChange changes ->
  (Forall (fun blk => blockStatus blk = StatusAccepted
                      \/ blockStatus blk = StatusUnchanged) blocks ->
   buildContentFromDiff changes = proposedContent changes)
  /\ (Forall (fun blk => blockStatus blk = StatusRejected
                         \/ blockStatus blk = StatusUnchanged) blocks ->
      buildContentFromDiff changes = originalContent changes).
Proof.
  intros <- Hwf.
  split; intros Hst.
  - assert (Hall : Forall (fun c => wellFormedChange c
                             /\ (isNeutral c = true \/ accepted c = Some true))
                     (concat blocks)).
    { apply Forall_and; [exact Hwf|]. apply Forall_concat.
      eapply Forall_impl; [|exact Hst].
      intros blk. apply (blockStatus_entries true). }
    unfold buildContentFromDiff, proposedContent. do 2 f_equal.
    eapply filter_on_members; [exact Hall|].
    intros c [Hc Hd]. unfold wellFormedChange in Hc.
    unfold keptInContent, isNeutral in *.
    destruct (added c), (removed c); simpl in *; try congruence;
      destruct Hd as [Hd|Hd]; try discriminate; now rewrite Hd.
  - assert (Hall : Forall (fun c => isNeutral c = true
                                    \/ accepted c = Some false)
                     (concat blocks)).
    { apply Forall_concat. eapply Forall_impl; [|exact Hst].
      intros blk. apply (blockStatus_entries false). }
    unfold buildContentFromDiff, originalContent. do 2 f_equal.
    eapply filter_on_members; [exact Hall|].
    intros c Hd. unfold keptInContent, isNeutral in *.
    destruct (added c), (removed c); simpl in *; try reflexivity;
      destruct Hd as [Hd|Hd]; try discriminate; now rewrite Hd.
Qed.

Lemma statuses_decide_content_witness :
  let blocks := firstn 3 demoBlocks in
  Forall wellFormedChange (concat blocks)
  /\ Forall (fun blk => blockStatus blk = StatusAccepted
                        \/ blockStatus blk = StatusUnchanged) blocks
  /\ buildContentFromDiff (concat blocks) = proposedContent (concat blocks).
Proof.
  intros blocks.
  assert (Hwf : Forall wellFormedChange (concat blocks))
    by (repeat constructor).
  assert (Hst : Forall (fun blk => blockStatus blk = StatusAccepted
                                   \/ blockStatus blk = StatusUnchanged)
                  blocks).
  { repeat constructor; simpl; tauto. }
  split; [exact Hwf|]. split; [exact Hst|].
  exact (proj1 (@statuses_decide_content blocks (concat blocks) eq_refl Hwf)
           Hst).
Defined.

Section NextBlock.

Lemma needsDecision_iff (blk : list ExtendedChange) :
  needsDecision blk = true <-> hasUndecided blk.
Proof.
  unfold needsDecision, hasUndecided. split.
  - intros H. apply andb_true_iff in H. destruct H as [_ H].
    apply existsb_exists in H. destruct H as (c & Hin & Hc).
    apply andb_true_iff in Hc. destruct Hc as [Hch Hun].
    exists c. repeat split; [exact Hin | exact Hch|].
    destruct (accepted c); [discriminate | reflexivity].
  - intros (c & Hin & Hch & Hun). apply andb_true_iff. split.
    + apply existsb_exists. exists c. split; [exact Hin | exact Hch].
    + apply existsb_exists. exists c. split; [exact Hin|].
      unfold isChanged in Hch. now rewrite Hch, Hun.
Qed.

Lemma scanBlocks_spec (blocks : list (list ExtendedChange)) (i : nat) :
  match scanBlocks i blocks with
  | Some j =>
      exists k blk,
        j = i + k
        /\ nth_error blocks k = Some blk
        /\ needsDecision blk = true
        /\ forall m b, m < k -> nth_error blocks m = Some b ->
                       needsDecision b = false
  | None => forall m b, nth_error blocks m = Some b ->
                        needsDecision b = false
  end.
Proof.
  revert i. induction blocks as [|blk blocks IH]; intros i; simpl.
  - intros [|m] b H; discriminate.
  - destruct (needsDecision blk) eqn:Hn.
    + exists 0, blk. repeat split; [lia | exact Hn | intros; lia].
    + specialize (IH (S i)).
      destruct (scanBlocks (S i) blocks) as [j|].
      * destruct IH as (k & b & -> & Hk & Hb & Hbefore).
        exists (S k), b. repeat split; [lia | exact Hk | exact Hb |].
        intros [|m] b' Hm Hb'; simpl in Hb';
          [injection Hb' as <-; exact Hn | eapply Hbefore; eauto; lia].
      * intros [|m] b Hb; simpl in Hb;
          [injection Hb as <-; exact Hn | eapply IH; eauto].
Qed.

End NextBlock.

(** X12. [focusNextChangeBlock] looks for the first block after the
    current one that still holds an added or removed entry without
    decision: the index it computes lies after the current block, its
    block has such an entry and no block in between has one; it computes
    -1 exactly when no later block has one. *)
Theorem nextBlockIndex_first_undecided
    (changeBlocks : list (list ExtendedChange)) (currentBlockIndex : nat) :
  match nextBlockIndex changeBlocks currentBlockIndex with
  | Some j =>
      currentBlockIndex < j
      /\ (exists blk, nth_error changeBlocks j = Some blk /\ hasUndecided blk)
      /\ forall m blk,
           currentBlockIndex < m < j ->
           nth_error changeBlocks m = Some blk -> ~ hasUndecided blk
  | None =>
      forall m blk,
        currentBlockIndex < m ->
        nth_error changeBlocks m = Some blk -> ~ hasUndecided blk
  end.
Proof.
  unfold nextBlockIndex.
  pose proof (scanBlocks_spec
                (skipn (currentBlockIndex + 1) changeBlocks)
                (currentBlockIndex + 1)) as H.
  destruct (scanBlocks _ _) as [j|].
  - destruct H as (k & blk & -> & Hk & Hb & Hbefore).
    rewrite nth_error_skipn in Hk.
    split; [lia|]. split.
    + exists blk. split; [exact Hk | now apply needsDecision_iff].
    + intros m b Hm Hnth Hun. apply needsDecision_iff in Hun.
      rewrite (Hbefore (m - (currentBlockIndex + 1)) b) in Hun;
        [discriminate | lia |].
      rewrite nth_error_skipn.
      now replace (currentBlockIndex + 1 + (m - (currentBlockIndex + 1)))
        with m by lia.
  - intros m b Hm Hnth Hun. apply needsDecision_iff in Hun.
    rewrite (H (m - (currentBlockIndex + 1)) b) in Hun; [discriminate|].
    rewrite nth_error_skipn.
    now replace (currentBlockIndex + 1 + (m - (currentBlockIndex + 1)))
      with m by lia.
Qed.

Section FolderPath.

Lemma split_cons (s : string) : exists piece pieces, Path.split s = piece :: pieces.
Proof.
  destruct s as [|c s]; simpl; [eauto|].
  destruct (Ascii.eqb c "/"); [eauto|].
  destruct (Path.split s); eauto.
Qed.

Lemma concat_cons_cons (sep x y : string) (l : list string) :
  String.concat sep (x :: y :: l)
  = (x ++ sep ++ String.concat sep (y :: l))%string.
Proof. reflexivity. Qed.

(** Joining the pieces with the separator gives the path back. *)
Lemma split_join (s : string) : String.concat "/" (Path.split s) = s.
Proof.
  induction s as [|c s IH]; [reflexivity|]. simpl.
  destruct (Ascii.eqb_spec c "/"%char) as [->|Hc].
  - destruct (split_cons s) as (p & ps & E). rewrite E in *.
    rewrite concat_cons_cons, IH. reflexivity.
  - destruct (split_cons s) as (p & ps & E). rewrite E in *.
    destruct ps as [|q ps].
    + simpl in *. now rewrite IH.
    + rewrite concat_cons_cons in *. cbn [append]. f_equal. exact IH.
Qed.

Lemma split_pieces (s : string) :
  Forall (fun piece => Path.includesSlash piece = false) (Path.split s).
Proof.
  induction s as [|c s IH]; simpl; [repeat constructor|].
  destruct (Ascii.eqb c "/") eqn:Hc; [constructor; [reflexivity | exact IH]|].
  destruct (Path.split s) as [|p ps]; [repeat constructor; simpl; now rewrite Hc|].
  inversion IH; subst. constructor; [simpl; now rewrite Hc | assumption].
Qed.

Lemma split_single (s : string) :
  Path.includesSlash s = false -> Path.split s = [s].
Proof.
  induction s as [|c s IH]; simpl; [reflexivity|].
  destruct (Ascii.eqb c "/"); [discriminate|]. simpl.
  intros H. now rewrite (IH H).
Qed.

Lemma split_several (s : string) :
  Path.includesSlash s = true ->
  exists piece other pieces, Path.split s = piece :: other :: pieces.
Proof.
  induction s as [|c s IH]; simpl; [discriminate|].
  destruct (Ascii.eqb c "/"); simpl.
  - intros _. destruct (split_cons s) as (p & ps & ->). eauto.
  - intros H. destruct (IH H) as (p & q & ps & ->). eauto.
Qed.

Lemma concat_snoc (sep y x : string) (l : list string) :
  String.concat sep ((x :: l) ++ [y])
  = (String.concat sep (x :: l) ++ sep ++ y)%string.
Proof.
  revert x. induction l as [|x' l IH]; intros x; [reflexivity|].
  change ((x :: x' :: l) ++ [y]) with (x :: x' :: (l ++ [y])).
  rewrite !concat_cons_cons.
  change (x' :: l ++ [y]) with ((x' :: l) ++ [y]).
  rewrite IH, !append_assoc. reflexivity.
Qed.

Lemma last_member (A : Type) (d x : A) (l : list A) :
  In (last (x :: l) d) (x :: l).
Proof.
  revert x. induction l as [|y l IH]; intros x; [now left|].
  right. apply IH.
Qed.

End FolderPath.

(** X13. The folder that [getFile] creates for a path with a slash is the
    path up to its last slash: the path is that folder, a slash and a
    file name without slash.  A path without slash is its own single
    piece, and joining the pieces of any path gives the path back. *)
Theorem folderPath_is_parent (file_path : string) :
  String.concat "/" (Path.split file_path) = file_path
  /\ (Path.includesSlash file_path = false ->
      Path.split file_path = [file_path])
  /\ (Path.includesSlash file_path = true ->
      exists name,
        file_path = (Path.folderPath file_path ++ "/" ++ name)%string
        /\ Path.includesSlash name = false).
Proof.
  split; [apply split_join|]. split; [apply split_single|].
  intros H. destruct (split_several _ H) as (p & q & ps & E).
  pose proof (split_join file_path) as Hjoin.
  pose proof (split_pieces file_path) as Hpieces.
  unfold Path.folderPath. rewrite E in *.
  exists (last (p :: q :: ps) ""%string). split.
  - rewrite <- Hjoin at 1.
    rewrite (app_removelast_last ""%string) at 1 by discriminate.
    change (removelast (p :: q :: ps)) with (p :: removelast (q :: ps)).
    apply concat_snoc.
  - rewrite Forall_forall in Hpieces. apply Hpieces, last_member.
Qed.

Section RenderEntry.

Lemma findOther_find (p : ExtendedChange -> bool) (changeIndex : nat)
    (blk : list ExtendedChange) (i : nat) :
  (forall c, i <= changeIndex ->
             nth_error blk (changeIndex - i) = Some c -> p c = false) ->
  findOther p changeIndex i blk = find p blk.
Proof.
  revert i. induction blk as [|c blk IH]; intros i H; simpl;
    [reflexivity|].
  destruct (p c) eqn:Hp; simpl.
  - destruct (Nat.eqb_spec i changeIndex) as [->|Hne]; [|reflexivity].
    specialize (H c (Nat.le_refl _)). rewrite Nat.sub_diag in H.
    specialize (H eq_refl). congruence.
  - apply IH. intros c' Hle Hnth. apply (H c'); [lia|].
    replace (changeIndex - i) with (S (changeIndex - S i)) by lia.
    exact Hnth.
Qed.

Lemma find_existsb (A : Type) (p : A -> bool) (l : list A) :
  existsb p l = match find p l with Some _ => true | None => false end.
Proof.
  induction l as [|x l IH]; simpl; [reflexivity|].
  destruct (p x); [reflexivity | exact IH].
Qed.

End RenderEntry.

(** X14. How an undecided block is drawn.  An added entry is drawn as a
    word diff against the first removed entry of the block (the same one
    for every added entry) and plainly when the block has none; a removed
    entry is hidden as soon as the block has an added entry and drawn
    plainly otherwise; a neutral entry is drawn plainly. *)
Theorem renderEntry_rule (blk : list ExtendedChange)
    (change : ExtendedChange) (changeIndex : nat) :
  Forall wellFormedChange blk ->
  nth_error blk changeIndex = Some change ->
  renderEntry blk change changeIndex
  = if added change then
      match find removed blk with
      | Some removedEntry => ViewWordDiff (value removedEntry) (value change)
      | None => ViewPlain (value change)
      end
    else if removed change then
      if existsb added blk then ViewHidden else ViewPlain (value change)
    else ViewPlain (value change).
Proof.
  intros Hwf Hnth.
  assert (Hc : wellFormedChange change).
  { rewrite Forall_forall in Hwf. eapply Hwf, nth_error_In, Hnth. }
  unfold wellFormedChange in Hc. unfold renderEntry.
  destruct (added change) eqn:Ha.
  - simpl in Hc. rewrite Hc.
    rewrite findOther_find; [reflexivity|].
    intros c _ H. rewrite Nat.sub_0_r, Hnth in H. now injection H as <-.
  - destruct (removed change) eqn:Hr; [|reflexivity].
    rewrite findOther_find.
    + rewrite find_existsb. now destruct (find added blk).
    + intros c _ H. rewrite Nat.sub_0_r, Hnth in H. now injection H as <-.
Qed.

Lemma renderEntry_rule_witness :
  renderEntry (concat demoBlocks) (mkExtended 4 "E" true false None) 4
  = ViewWordDiff "B" "E".
Proof.
  rewrite (@renderEntry_rule (concat demoBlocks)
             (mkExtended 4 "E" true false None) 4);
    [reflexivity | repeat constructor | reflexivity].
Defined.

(** * Further properties of the streamer *)

Section StreamerMore.

Variables Extra Tool Result World : Type.
Variable tools : ToolName -> option Tool.
Variable callTool : Tool -> Args -> World -> (Result + Thrown) * World.
Variable format : ToolName -> Result -> string + Thrown.

Local Abbreviation Chunk := (Chunk Extra).
Local Abbreviation Event := (Event Extra Tool).
Local Abbreviation dispatchBlock :=
  (@dispatch Extra _ _ _ tools callTool format).
Local Abbreviation dispatchLoop :=
  (@dispatchLoop Extra _ _ _ tools callTool format).
Local Abbreviation processChunk :=
  (@processChunk Extra _ _ _ tools callTool format).
Local Abbreviation processStream :=
  (@processStream Extra _ _ _ tools callTool format).

Lemma yieldsOf_app (e1 e2 : list Event) :
  yieldsOf (e1 ++ e2) = yieldsOf e1 ++ yieldsOf e2.
Proof.
  induction e1 as [|[c|b f|t tool args] e1 IH]; simpl;
    [reflexivity | now rewrite IH | exact IH | exact IH].
Qed.

Lemma blocksOf_app (e1 e2 : list Event) :
  blocksOf (e1 ++ e2) = blocksOf e1 ++ blocksOf e2.
Proof.
  induction e1 as [|[c|b [info|]|t tool args] e1 IH]; simpl;
    [reflexivity | exact IH | now rewrite IH | exact IH | exact IH].
Qed.

Lemma dispatch_calls_exact (t : ToolName) (args : Args) (w : World) :
  callsOf (fst (fst (dispatchBlock t args w)))
  = match tools t with
    | Some tool => [(t, tool, args)]
    | None => []
    end
  /\ yieldsOf (fst (fst (dispatchBlock t args w))) = []
  /\ blocksOf (fst (fst (dispatchBlock t args w))) = [].
Proof.
  unfold dispatch. destruct (tools t) as [tool|]; [|repeat split].
  destruct (callTool tool args w) as [[result|err] w1];
    [destruct (format t result)|]; repeat split.
Qed.

Lemma processChunk_drains_last (buffer : string) (chunk : Chunk)
    (w : World) :
  exists events buffer' w',
    processChunk buffer chunk w = Some (events, buffer', w')
    /\ findCompleteBlock buffer' = None.
Proof.
  rewrite processChunk_unfold.
  destruct (dispatchLoop_total tools callTool format chunk
              (addToBuffer buffer (chunkContent chunk)) w
              (Nat.lt_succ_diag_r _)) as [[[events b'] w'] Hr].
  rewrite Hr. eexists _, _, _. split; [reflexivity|].
  eapply dispatchLoop_drained. exact Hr.
Qed.

(** Everything one run of the loop does, read off its trace. *)
Lemma dispatchLoop_trace (fuel : nat) (chunk : Chunk) (buffer : string)
    (w : World) events buffer' w' :
  dispatchLoop fuel chunk buffer w = Some (events, buffer', w') ->
  callsOf events = callsFor tools (blocksOf events)
  /\ (exists texts,
         yieldsOf events = map (synthesized chunk) texts
         /\ List.length texts = List.length (blocksOf events))
  /\ list_sum (map endIdx (blocksOf events)) <= String.length buffer
  /\ buffer' = Js.substringFrom (list_sum (map endIdx (blocksOf events)))
                 buffer.
Proof.
  revert buffer w events.
  induction fuel as [|fuel IH]; intros buffer w events H;
    [discriminate|].
  rewrite dispatchLoop_step in H.
  destruct (findCompleteBlock buffer) as [info|] eqn:Hf.
  - cbv zeta in H.
    pose proof (dispatch_calls_exact (toolName info)
                  (buildArgs (toolName info) (block info)) w)
      as (Hc & Hy & Hb).
    destruct (dispatchBlock _ _ w) as [[calls text] w1].
    cbn [fst] in Hc, Hy, Hb.
    destruct (dispatchLoop fuel chunk _ w1) as [[[ev b2] w2]|] eqn:Hr;
      [|discriminate].
    injection H as <- <- <-.
    destruct (IH _ _ _ Hr) as (IHc & (texts & IHy & IHn) & IHle & IHb).
    pose proof (findCompleteBlock_endIdx _ Hf) as He.
    rewrite substringFrom_length in IHle.
    cbn [callsOf yieldsOf blocksOf].
    rewrite callsOf_app, yieldsOf_app, blocksOf_app, Hc, Hy, Hb.
    cbn [callsOf yieldsOf blocksOf app map list_sum fold_right].
    repeat split.
    + rewrite IHc. unfold callsFor. cbn [flat_map].
      now destruct (tools (toolName info)).
    + exists (text :: texts). cbn [map List.length].
      now rewrite IHy, IHn.
    + change (fold_right Nat.add 0 (map endIdx (blocksOf ev)))
        with (list_sum (map endIdx (blocksOf ev))). lia.
    + change (fold_right Nat.add 0 (map endIdx (blocksOf ev)))
        with (list_sum (map endIdx (blocksOf ev))).
      rewrite IHb. symmetry. apply substringFrom_plus.
  - injection H as <- <- <-. cbn. repeat split; [|lia].
    exists []. split; reflexivity.
Qed.

(** X15. The tool calls of [processChunk] are exactly the ones its
    found blocks stand for, in order: one call, with the arguments
    extracted from the block, for each found block whose tag has a
    registered tool, and none for any other block. *)
Theorem processChunk_calls_follow_blocks (buffer : string) (chunk : Chunk)
    (w : World) :
  exists events buffer' w',
    processChunk buffer chunk w = Some (events, buffer', w')
    /\ callsOf events = callsFor tools (blocksOf events).
Proof.
  rewrite processChunk_unfold.
  destruct (dispatchLoop_total tools callTool format chunk
              (addToBuffer buffer (chunkContent chunk)) w
              (Nat.lt_succ_diag_r _)) as [[[events b'] w'] Hr].
  rewrite Hr. eexists _, _, _. split; [reflexivity|].
  cbn [callsOf blocksOf]. now apply dispatchLoop_trace in Hr.
Qed.

(** X16. What [processChunk] yields: the incoming chunk, then one
    synthesized chunk per found block, each with the other fields of the
    incoming chunk and a string content wrapped in line feeds. *)
Theorem processChunk_yields_per_block (buffer : string) (chunk : Chunk)
    (w : World) :
  exists events buffer' w' texts,
    processChunk buffer chunk w = Some (events, buffer', w')
    /\ yieldsOf events
       = chunk
           :: map (fun text =>
                     {| content :=
                          ContentString (newline ++ text ++ newline)%string;
                        extra := extra chunk |}) texts
    /\ List.length texts = List.length (blocksOf events).
Proof.
  rewrite processChunk_unfold.
  destruct (dispatchLoop_total tools callTool format chunk
              (addToBuffer buffer (chunkContent chunk)) w
              (Nat.lt_succ_diag_r _)) as [[[events b'] w'] Hr].
  rewrite Hr.
  pose proof Hr as Ht. apply dispatchLoop_trace in Ht.
  destruct Ht as (_ & (texts & Hy & Hn) & _).
  exists (EvYield chunk :: events), b', w', texts.
  split; [reflexivity|]. cbn [yieldsOf blocksOf].
  split; [now rewrite Hy | exact Hn].
Qed.

(** X17. The buffer only loses text at its front: after [processChunk]
    it is the old buffer plus the text of the chunk, cut at the sum of
    the end offsets of the blocks found, and that sum lies inside. *)
Theorem processChunk_truncates_front (buffer : string) (chunk : Chunk)
    (w : World) :
  exists events buffer' w',
    processChunk buffer chunk w = Some (events, buffer', w')
    /\ list_sum (map endIdx (blocksOf events))
       <= String.length (buffer ++ chunkContent chunk)
    /\ buffer'
       = Js.substringFrom (list_sum (map endIdx (blocksOf events)))
           (buffer ++ chunkContent chunk).
Proof.
  rewrite processChunk_unfold, addToBuffer_append.
  destruct (dispatchLoop_total tools callTool format chunk
              (buffer ++ chunkContent chunk)%string w
              (Nat.lt_succ_diag_r _)) as [[[events b'] w'] Hr].
  rewrite Hr.
  pose proof Hr as Ht. apply dispatchLoop_trace in Ht.
  destruct Ht as (_ & _ & Hle & Hb).
  exists (EvYield chunk :: events), b', w'.
  split; [reflexivity|]. cbn [blocksOf]. split; assumption.
Qed.

Lemma fold_payload (items : list ContentItem) (acc : string) :
  fold_left
    (fun acc item =>
       if (itemType item =? "text")%string
       then match itemText item with
            | Some t => (acc ++ t)%string
            | None => acc
            end
       else acc)
    items acc
  = (acc ++ Js.join (map itemPayload items))%string.
Proof.
  revert acc. induction items as [|item items IH]; intros acc.
  - simpl. unfold Js.join. simpl. now rewrite append_empty_r.
  - cbn [fold_left map]. rewrite IH, join_cons. unfold itemPayload.
    destruct (itemType item =? "text")%string.
    + destruct (itemText item); [now rewrite append_assoc | reflexivity].
    + reflexivity.
Qed.

(** X18. The text of a chunk with array content is the text of its
    items of type ["text"] put end to end, in order; items of any other
    type, and text items whose text is null, add nothing.  Hence the
    text of two arrays put together is the two texts put together. *)
Theorem chunkContent_of_array (items more : list ContentItem)
    (e : Extra) :
  chunkContent (mkChunk (ContentArray items) e)
    = Js.join (map itemPayload items)
  /\ chunkContent (mkChunk (ContentArray (items ++ more)) e)
     = (chunkContent (mkChunk (ContentArray items) e)
          ++ chunkContent (mkChunk (ContentArray more) e))%string.
Proof.
  unfold chunkContent. cbn [content]. rewrite !fold_payload.
  cbn [append]. split; [reflexivity|].
  rewrite map_app. generalize (map itemPayload items) as l.
  induction l as [|x l IH]; [reflexivity|].
  cbn [app]. now rewrite !join_cons, IH, append_assoc.
Qed.

Lemma findCompleteBlock_prefix_none (u v : string) :
  findCompleteBlock (u ++ v) = None -> findCompleteBlock u = None.
Proof.
  unfold findCompleteBlock.
  destruct (searchBlock (u ++ v)) as [[[i t] n]|] eqn:Huv; [discriminate|].
  intros _.
  destruct (searchBlock u) as [[[i t] n]|] eqn:Hu; [|reflexivity].
  destruct (searchBlock_Some _ Hu) as (Hat & _ & _).
  exfalso. eapply searchBlock_found; [|exact Huv].
  apply (matchBlockAt_in_part (u ++ v) u v 0 i eq_refl Hat).
Qed.

Lemma processStream_buffers (chunks : list Chunk) (buffer : string)
    (w : World) :
  findCompleteBlock
    (buffer ++ Js.join (map (@chunkContent Extra) chunks)) = None ->
  exists events,
    processStream chunks buffer w
      = Some (events,
              (buffer ++ Js.join (map (@chunkContent Extra) chunks))%string,
              w)
    /\ callsOf events = []
    /\ yieldsOf events = chunks.
Proof.
  revert buffer. induction chunks as [|c chunks IH]; intros buffer Hq.
  - exists []. simpl. unfold Js.join. simpl.
    rewrite append_empty_r. repeat split.
  - cbn [map] in *. rewrite join_cons in *.
    rewrite <- append_assoc in Hq.
    rewrite processStream_cons.
    rewrite processChunk_quiet
      by (eapply findCompleteBlock_prefix_none; exact Hq).
    destruct (IH _ Hq) as (ev & Hr & Hc & Hy).
    rewrite Hr. eexists. split; [now rewrite append_assoc|].
    cbn [app callsOf yieldsOf]. split; [exact Hc | now rewrite Hy].
Qed.

(** X20. Text that holds no complete block is only buffered.  However a
    stream without a complete recognized pair is cut into chunks, a
    fresh streamer passes the chunks through as they are, calls no
    tool, leaves the world alone and ends with the whole stream in its
    buffer. *)
Theorem stream_without_block_is_buffered (stream : string)
    (chunks : list Chunk) (w : World) :
  findCompleteBlock stream = None ->
  Js.join (map (@chunkContent Extra) chunks) = stream ->
  exists events,
    processStream chunks "" w = Some (events, stream, w)
    /\ callsOf events = []
    /\ yieldsOf events = chunks.
Proof.
  intros Hq <-.
  exact (processStream_buffers chunks "" w Hq).
Qed.

(** X21. A tool that fails does not stop the loop.  When the first block
    of the buffer has a registered tool and the call throws, the chunk
    is followed by the scan, the call, a synthesized chunk with the
    text ["Error: "] and the message of the thrown value, and then by
    the run of the loop on the rest of the buffer, in the world the
    failed call left. *)
Theorem processChunk_tool_failure (buffer : string) (chunk : Chunk)
    (w w1 : World) (info : BlockInfo) (tool : Tool) (err : Thrown) :
  findCompleteBlock (buffer ++ chunkContent chunk) = Some info ->
  tools (toolName info) = Some tool ->
  callTool tool (buildArgs (toolName info) (block info)) w = (inr err, w1) ->
  let rest := Js.substringFrom (endIdx info) (buffer ++ chunkContent chunk) in
  exists events buffer' w',
    dispatchLoop (S (String.length rest)) chunk rest w1
      = Some (events, buffer', w')
    /\ processChunk buffer chunk w
       = Some (EvYield chunk
                 :: EvScan (buffer ++ chunkContent chunk)%string (Some info)
                 :: EvCall (toolName info) tool
                      (buildArgs (toolName info) (block info))
                 :: EvYield
                      {| content :=
                           ContentString
                             (newline ++ ("Error: " ++ errorText err)
                                ++ newline)%string;
                         extra := extra chunk |}
                 :: events,
               buffer', w').
Proof.
  intros Hf Htool Hcall rest.
  destruct (dispatchLoop_total tools callTool format chunk rest w1
              (Nat.lt_succ_diag_r _)) as [[[events b'] w'] Hr].
  exists events, b', w'. split; [exact Hr|].
  assert (Hr' : dispatchLoop (String.length (buffer ++ chunkContent chunk))
                  chunk rest w1 = Some (events, b', w')).
  { eapply dispatchLoop_fuel; [exact Hr|].
    pose proof (findCompleteBlock_shrinks _ Hf). subst rest. lia. }
  subst rest.
  rewrite processChunk_unfold, addToBuffer_append, dispatchLoop_step, Hf.
  cbv zeta. unfold dispatch. rewrite Htool, Hcall, Hr'. reflexivity.
Qed.

(** X22. After a stream of at least one chunk the buffer holds no
    complete recognized block, whatever it held before. *)
Theorem processStream_drains_buffer (chunk : Chunk) (chunks : list Chunk)
    (buffer : string) (w : World) :
  exists events buffer' w',
    processStream (chunks ++ [chunk]) buffer w = Some (events, buffer', w')
    /\ findCompleteBlock buffer' = None.
Proof.
  revert buffer w. induction chunks as [|c chunks IH]; intros buffer w.
  - cbn [app]. rewrite processStream_cons.
    destruct (processChunk_drains_last buffer chunk w)
      as (events & b' & w' & Hr & Hq).
    rewrite Hr. cbn. eexists _, _, _. split; [reflexivity | exact Hq].
  - cbn [app]. rewrite processStream_cons.
    destruct (processChunk_drains_last buffer c w)
      as (e0 & b0 & w0 & Hr0 & _).
    rewrite Hr0.
    destruct (IH b0 w0) as (events & b' & w' & Hr & Hq).
    rewrite Hr. eexists _, _, _. split; [reflexivity | exact Hq].
Qed.

End StreamerMore.

Lemma stream_without_block_is_buffered_witness :
  findCompleteBlock "he<writeToFile><path>a.md</path></writeToFil" = None
  /\ exists events,
       processStream demoTools demoCall demoFormat demoUnfinished "" []
       = Some (events, "he<writeToFile><path>a.md</path></writeToFil"%string, [])
       /\ callsOf events = []
       /\ yieldsOf events = demoUnfinished.
Proof.
  split; [reflexivity|].
  apply (@stream_without_block_is_buffered unit nat string (list Args)
           demoTools demoCall demoFormat
           "he<writeToFile><path>a.md</path></writeToFil"%string
           demoUnfinished []); reflexivity.
Defined.

Lemma processChunk_tool_failure_witness :
  exists events buffer' w',
    dispatchLoop demoTools demoFailingCall demoFormat 22 demoTwoBlocks
      "<moveFile></moveFile>" [[("path", AString "x")]]
    = Some (events, buffer', w')
    /\ processChunk demoTools demoFailingCall demoFormat "" demoTwoBlocks []
       = Some (EvYield demoTwoBlocks
                 :: EvScan
                      "<createFolder><path>x</path></createFolder><moveFile></moveFile>"
                      (Some (mkBlockInfo
                               "<createFolder><path>x</path></createFolder>"
                               createFolder 43))
                 :: EvCall createFolder 7 [("path", AString "x")]
                 :: EvYield
                      (mkChunk
                         (ContentString
                            (newline ++ "Error: disk full" ++ newline)%string)
                         tt)
                 :: events,
               buffer', w').
Proof.
  exact (@processChunk_tool_failure unit nat string (list Args)
           demoTools demoFailingCall demoFormat "" demoTwoBlocks
           [] [[("path", AString "x")]]
           (mkBlockInfo "<createFolder><path>x</path></createFolder>"
              createFolder 43)
           7
           {| message := Some "disk full"%string;
              rendered := "Error: disk full"%string |}
           eq_refl eq_refl eq_refl).
Defined.

(** * Field extraction *)

Section Trim.

Lemma trimEnd_cons (c : ascii) (s : string) :
  Js.trimEnd (String c s)
  = match Js.trimEnd s with
    | EmptyString =>
        if Js.isWhiteSpace c then EmptyString else String c EmptyString
    | rest => String c rest
    end.
Proof. reflexivity. Qed.

Lemma trimStart_headFree (s : string) : headFree (Js.trimStart s).
Proof.
  induction s as [|c s IH]; simpl; [exact I|].
  destruct (Js.isWhiteSpace c) eqn:E; [exact IH | exact E].
Qed.

Lemma trimStart_fixed (s : string) : headFree s -> Js.trimStart s = s.
Proof. destruct s as [|c s]; simpl; [reflexivity|]. now intros ->. Qed.

Lemma trimEnd_headFree (s : string) : headFree s -> headFree (Js.trimEnd s).
Proof.
  destruct s as [|c s]; simpl; [exact id|]. intros E.
  destruct (Js.trimEnd s); [rewrite E|]; exact E.
Qed.

Lemma trimEnd_idempotent (s : string) :
  Js.trimEnd (Js.trimEnd s) = Js.trimEnd s.
Proof.
  induction s as [|c s IH]; [reflexivity|]. rewrite (trimEnd_cons c s).
  destruct (Js.trimEnd s) as [|d r] eqn:E.
  - destruct (Js.isWhiteSpace c) eqn:Ec; [reflexivity|].
    simpl. now rewrite Ec.
  - rewrite trimEnd_cons, IH. reflexivity.
Qed.

Lemma trim_idempotent (s : string) : Js.trim (Js.trim s) = Js.trim s.
Proof.
  unfold Js.trim.
  rewrite (trimStart_fixed (Js.trimEnd (Js.trimStart s)))
    by apply trimEnd_headFree, trimStart_headFree.
  apply trimEnd_idempotent.
Qed.

Lemma isWhiteSpace_lowerChar (c : ascii) :
  Js.isWhiteSpace (Js.lowerChar c) = Js.isWhiteSpace c.
Proof.
  destruct c as [[] [] [] [] [] [] [] []]; reflexivity.
Qed.

Lemma lowerChar_idempotent (c : ascii) :
  Js.lowerChar (Js.lowerChar c) = Js.lowerChar c.
Proof.
  destruct c as [[] [] [] [] [] [] [] []]; reflexivity.
Qed.

Lemma toLowerCase_idempotent (s : string) :
  Js.toLowerCase (Js.toLowerCase s) = Js.toLowerCase s.
Proof.
  induction s as [|c s IH]; simpl; [reflexivity|].
  now rewrite lowerChar_idempotent, IH.
Qed.

Lemma trimStart_toLowerCase (s : string) :
  Js.trimStart (Js.toLowerCase s) = Js.toLowerCase (Js.trimStart s).
Proof.
  induction s as [|c s IH]; simpl; [reflexivity|].
  rewrite isWhiteSpace_lowerChar.
  destruct (Js.isWhiteSpace c); [exact IH | reflexivity].
Qed.

Lemma trimEnd_toLowerCase (s : string) :
  Js.trimEnd (Js.toLowerCase s) = Js.toLowerCase (Js.trimEnd s).
Proof.
  induction s as [|c s IH]; simpl; [reflexivity|].
  rewrite IH, isWhiteSpace_lowerChar.
  destruct (Js.trimEnd s); simpl; [|reflexivity].
  now destruct (Js.isWhiteSpace c).
Qed.

Lemma trim_toLowerCase (s : string) :
  Js.trim (Js.toLowerCase s) = Js.toLowerCase (Js.trim s).
Proof.
  unfold Js.trim. now rewrite trimStart_toLowerCase, trimEnd_toLowerCase.
Qed.

End Trim.

(** X23. [parseBoolean] reads its flag without regard to letter case and
    to white space around it: lower-casing or trimming the text first
    gives the same answer. *)
Theorem parseBoolean_insensitive (v : string) :
  parseBoolean (Some (Js.toLowerCase v)) = parseBoolean (Some v)
  /\ parseBoolean (Some (Js.trim v)) = parseBoolean (Some v).
Proof.
  unfold parseBoolean. split.
  - now rewrite trim_toLowerCase, toLowerCase_idempotent.
  - now rewrite trim_idempotent.
Qed.

Section FieldSearch.

Variable tag : string.

Lemma searchField_spec (s : string) :
  match searchField tag s with
  | Some raw =>
      exists pre post,
        s = (pre ++ openTag tag ++ raw ++ closeTag tag ++ post)%string
        /\ (forall b1 b2,
               (raw ++ closeTag tag ++ post
                = b1 ++ closeTag tag ++ b2)%string ->
               String.length raw <= String.length b1)
        /\ (forall pre' mid' post',
               s = (pre' ++ openTag tag ++ mid' ++ closeTag tag
                      ++ post')%string ->
               String.length pre <= String.length pre')
  | None =>
      forall pre mid post,
        s <> (pre ++ openTag tag ++ mid ++ closeTag tag ++ post)%string
  end.
Proof.
  assert (Hhere : forall s len,
             Regex.delimitedAt (openTag tag) (closeTag tag) s = Some len ->
             exists post,
               let raw :=
                 Js.substringTo
                   (len - String.length (openTag tag)
                    - String.length (closeTag tag))
                   (Js.substringFrom (String.length (openTag tag)) s) in
               s = (openTag tag ++ raw ++ closeTag tag ++ post)%string
               /\ forall b1 b2,
                    (raw ++ closeTag tag ++ post
                     = b1 ++ closeTag tag ++ b2)%string ->
                    String.length raw <= String.length b1).
  { intros s0 len Hd.
    destruct (delimitedAt_Some _ _ _ Hd) as (body & rest & -> & -> & Hmin).
    exists rest. cbv zeta.
    replace (String.length (openTag tag)
             + (String.length body + String.length (closeTag tag))
             - String.length (openTag tag)
             - String.length (closeTag tag))
      with (String.length body) by lia.
    rewrite substringFrom_append, substringTo_append.
    split; [reflexivity | exact Hmin]. }
  assert (Hmiss : forall s,
             Regex.delimitedAt (openTag tag) (closeTag tag) s = None ->
             forall mid post,
               s <> (openTag tag ++ mid ++ closeTag tag ++ post)%string).
  { intros s0 Hd mid post ->. revert Hd. apply delimitedAt_complete. }
  induction s as [|c s IH].
  - cbn [searchField].
    destruct (Regex.delimitedAt _ _ "") as [len|] eqn:Hd.
    + destruct (Hhere _ _ Hd) as (post & Hs & Hmin).
      exists ""%string, post. repeat split;
        [exact Hs | exact Hmin | intros; simpl; lia].
    + intros [|c pre] mid post; [now apply Hmiss | discriminate].
  - cbn [searchField].
    destruct (Regex.delimitedAt _ _ (String c s)) as [len|] eqn:Hd.
    + destruct (Hhere _ _ Hd) as (post & Hs & Hmin).
      exists ""%string, post. repeat split;
        [exact Hs | exact Hmin | intros; simpl; lia].
    + destruct (searchField tag s) as [raw|].
      * destruct IH as (pre & post & -> & Hmin & Hleft).
        exists (String c pre), post. repeat split; [exact Hmin|].
        intros [|c' pre'] mid' post' H.
        -- exfalso. revert H. now apply Hmiss.
        -- injection H as _ H. simpl. apply Hleft in H. lia.
      * intros [|c' pre] mid post H.
        -- revert H. now apply Hmiss.
        -- injection H as _ H. revert H. apply IH.
Qed.

End FieldSearch.

(** X24. [extractTagValue] takes the leftmost [<tag>] of the block that has
    a [</tag>] after it, wherever in the block it stands, and returns the
    text up to the first [</tag>], trimmed: the value has no white space
    left at either end.  It returns nothing exactly when the block has no
    such pair. *)
Theorem extractTagValue_leftmost_trimmed (blk tag : string) :
  match extractTagValue blk tag with
  | Some v =>
      exists pre raw post,
        blk = (pre ++ openTag tag ++ raw ++ closeTag tag ++ post)%string
        /\ v = Js.trim raw
        /\ Js.trim v = v
        /\ (forall b1 b2,
               (raw ++ closeTag tag ++ post
                = b1 ++ closeTag tag ++ b2)%string ->
               String.length raw <= String.length b1)
        /\ (forall pre' mid' post',
               blk = (pre' ++ openTag tag ++ mid' ++ closeTag tag
                        ++ post')%string ->
               String.length pre <= String.length pre')
  | None =>
      forall pre mid post,
        blk <> (pre ++ openTag tag ++ mid ++ closeTag tag ++ post)%string
  end.
Proof.
  unfold extractTagValue.
  pose proof (searchField_spec tag blk) as H.
  destruct (searchField tag blk) as [raw|]; cbn [option_map]; [|exact H].
  destruct H as (pre & post & Hs & Hmin & Hleft).
  exists pre, raw, post. repeat split;
    [exact Hs | apply trim_idempotent | exact Hmin | exact Hleft].
Qed.

(** A field written inside another field is found first when it stands
    further left. *)
Example extractTagValue_reads_inside_content :
  buildArgs writeToFile
    "<writeToFile><content><path>b.md</path></content><path> a.md </path></writeToFile>"
  = [("path", AString "b.md");
     ("content", AString "<path>b.md</path>")].
Proof. reflexivity. Qed.

Lemma folderPath_is_parent_witness :
  Path.folderPath "notes/2024/a.md" = "notes/2024"%string
  /\ exists name,
       "notes/2024/a.md"%string
       = (Path.folderPath "notes/2024/a.md" ++ "/" ++ name)%string
       /\ Path.includesSlash name = false.
Proof.
  split; [reflexivity|].
  exact (proj2 (proj2 (folderPath_is_parent "notes/2024/a.md")) eq_refl).
Defined.

(** * The request built by the chain runner *)

Section RequestFacts.

Variables Envelope Rest : Type.
Variable COMPOSER_OUTPUT_INSTRUCTIONS : string.

Lemma find_role (r : string) (l : list Chain.BaseMessage)
    (m : Chain.BaseMessage) :
  find (fun m => (Chain.role m =? r)%string) l = Some m ->
  Chain.role m = r.
Proof.
  intros H. apply find_some in H. destruct H as [_ H].
  now apply String.eqb_eq in H.
Qed.

Lemma find_usedMessages (baseMessages : list Chain.BaseMessage) :
  find (fun m => (Chain.role m =? "system")%string)
    (usedMessages baseMessages)
  = find (fun m => (Chain.role m =? "system")%string) baseMessages
  /\ find (fun m => (Chain.role m =? "user")%string)
       (usedMessages baseMessages)
     = find (fun m => (Chain.role m =? "user")%string) baseMessages.
Proof.
  unfold usedMessages.
  destruct (find (fun m => (Chain.role m =? "system")%string) baseMessages)
    as [s|] eqn:Hs;
    destruct (find (fun m => (Chain.role m =? "user")%string) baseMessages)
      as [u|] eqn:Hu;
    try (apply find_role in Hs); try (apply find_role in Hu);
    simpl; rewrite ?Hs, ?Hu; simpl; split; reflexivity.
Qed.

(** X25. Of the messages the converter produces, [constructMessages]
    forwards nothing but the first system message and the first user
    message: any other message of the envelope (another role, a second
    system or user message) leaves the request unchanged.  Without an
    envelope there is no request. *)
Theorem constructMessages_reads_two_messages
    (convert : Envelope -> list Chain.BaseMessage)
    (contextEnvelope : option Envelope)
    (chatHistory : list Chain.BaseMessage)
    (userContent : option (list (Chain.ContentPart Rest))) :
  Chain.constructMessages convert COMPOSER_OUTPUT_INSTRUCTIONS
    contextEnvelope chatHistory userContent
  = Chain.constructMessages (fun envelope => usedMessages (convert envelope))
      COMPOSER_OUTPUT_INSTRUCTIONS contextEnvelope chatHistory userContent
  /\ Chain.constructMessages convert COMPOSER_OUTPUT_INSTRUCTIONS
       None chatHistory userContent = None.
Proof.
  split; [|reflexivity].
  unfold Chain.constructMessages.
  destruct contextEnvelope as [envelope|]; [|reflexivity].
  cbv zeta.
  destruct (find_usedMessages (convert envelope)) as [-> ->].
  reflexivity.
Qed.

Lemma updateItem_other (text : string)
    (items : list (Chain.ContentPart Rest)) :
  Forall (fun item => Chain.partType item <> "text"%string) items ->
  map (Chain.updateItem text) items = items.
Proof.
  induction 1 as [|item items Hi _ IH]; simpl; [reflexivity|].
  rewrite IH. unfold Chain.updateItem.
  apply String.eqb_neq in Hi. now rewrite Hi.
Qed.

(** X26. The text of the turn travels in the text items of an
    array-valued user content.  When the content is an array without an
    item of type ["text"], the user message of the request is that array
    unchanged: the text of the envelope's user message and the composer
    instructions appear nowhere in it. *)
Theorem constructMessages_array_without_text
    (convert : Envelope -> list Chain.BaseMessage) (envelope : Envelope)
    (chatHistory : list Chain.BaseMessage)
    (items : list (Chain.ContentPart Rest)) (u : Chain.BaseMessage) :
  find (fun m => (Chain.role m =? "user")%string) (convert envelope)
    = Some u ->
  Forall (fun item => Chain.partType item <> "text"%string) items ->
  exists systemPart,
    Chain.constructMessages convert COMPOSER_OUTPUT_INSTRUCTIONS
      (Some envelope) chatHistory (Some items)
    = Some (systemPart ++ map (@Chain.plain Rest) chatHistory
              ++ [{| Chain.messageRole := "user"%string;
                     Chain.messageContent := Chain.PartsContent items |}])
    /\ List.length systemPart <= 1.
Proof.
  intros Hu Hitems. unfold Chain.constructMessages. cbv zeta.
  rewrite Hu, updateItem_other by exact Hitems.
  eexists. split; [reflexivity|].
  destruct (find (fun m => (Chain.role m =? "system")%string)
              (convert envelope)); simpl; lia.
Qed.

End RequestFacts.

Lemma constructMessages_array_without_text_witness :
  exists systemPart,
    Chain.constructMessages (fun _ : unit => demoBase) "rules"
      (Some tt) [Chain.mkBase "user" "hello"] (Some demoParts)
    = Some (systemPart ++ [Chain.plain nat (Chain.mkBase "user" "hello")]
              ++ [{| Chain.messageRole := "user"%string;
                     Chain.messageContent := Chain.PartsContent demoParts |}])
    /\ List.length systemPart <= 1.
Proof.
  apply (@constructMessages_array_without_text unit nat "rules"
           (fun _ => demoBase) tt [Chain.mkBase "user" "hello"] demoParts
           (Chain.mkBase "user" "context and question") eq_refl).
  repeat constructor; discriminate.
Defined.
